(** * The @silvermine/event-emitter mixin: a shallow embedding

    The development follows [src/index.js] and its three helpers
    [lib/find.js], [lib/reject.js] and [lib/is-array-of-strings.js].

    - JavaScript values are the inductive [value]; functions, objects and
      arrays carry an identity, and [strict_eq] is [===] on them; a function
      also carries its source text, which is what it becomes as a property
      key.  Numbers are the integer-valued ones (no NaN, no fractions).
    - The host object is reduced to its [_eventListeners] property, absent
      until [_ensureListenersHashExists] creates it.  That object is a finite
      map over its own keys; names inherited from [Object.prototype] are not
      part of the model.
    - [Promise.resolve().then(...)] appends a job to the microtask queue of the
      [world]; [run_next] and [drain] are the engine running those jobs in
      FIFO order.
    - A listener supplied by the caller is opaque: invoking it is recorded in
      the [calls] log with its receiver and arguments, and it does not call
      back into the emitter. *)

From Stdlib Require Import ZArith List Bool Lia.
From stdpp Require Import base option list strings gmap pretty.

Set Warnings "-register-all,-clear-no-such-hyp".
Local Open Scope string_scope.
Local Open Scope list_scope.

(** ** JavaScript values *)

Inductive value : Type :=
| VUndefined
| VNull
| VBool (b : bool)
| VNum (n : Z)
| VStr (s : string)
| VFun (id : nat) (source : string)
| VObj (id : nat)
| VArr (id : nat) (items : list value).

(** The [typeof] operator. *)
Definition typeof (v : value) : string :=
  match v with
  | VUndefined => "undefined"
  | VNull => "object"
  | VBool _ => "boolean"
  | VNum _ => "number"
  | VStr _ => "string"
  | VFun _ _ => "function"
  | VObj _ => "object"
  | VArr _ _ => "object"
  end.

(** ToBoolean: what [!v] and [v || w] test. *)
Definition truthy (v : value) : bool :=
  match v with
  | VUndefined | VNull => false
  | VBool b => b
  | VNum n => negb (n =? 0)%Z
  | VStr s => negb (String.eqb s "")
  | VFun _ _ | VObj _ | VArr _ _ => true
  end.

(** The [===] operator: primitives by value, functions, objects and arrays
    by identity. *)
Definition strict_eq (a b : value) : bool :=
  match a, b with
  | VUndefined, VUndefined => true
  | VNull, VNull => true
  | VBool x, VBool y => Bool.eqb x y
  | VNum x, VNum y => (x =? y)%Z
  | VStr x, VStr y => String.eqb x y
  | VFun i _, VFun j _ => Nat.eqb i j
  | VObj i, VObj j => Nat.eqb i j
  | VArr i _, VArr j _ => Nat.eqb i j
  | _, _ => false
  end.

Definition isArray (v : value) : bool :=
  match v with VArr _ _ => true | _ => false end.

(** ToString, as applied to a computed property key ([obj[v]]) and by
    string concatenation. An integer is printed in decimal (as JavaScript
    does below 10^21), a function gives its source text, a plain object
    ["[object Object]"], and an array joins its elements with commas,
    [undefined] and [null] elements giving the empty string. *)
Fixpoint ToString (v : value) : string :=
  match v with
  | VUndefined => "undefined"
  | VNull => "null"
  | VBool true => "true"
  | VBool false => "false"
  | VNum n => pretty n
  | VStr s => s
  | VFun _ source => source
  | VObj _ => "[object Object]"
  | VArr _ items =>
      String.concat ","
        (List.map (fun x => match x with
                            | VUndefined | VNull => ""
                            | _ => ToString x
                            end) items)
  end.

(** ** lib/is-array-of-strings.js *)

Definition isArrayOfStrings (o : value) : bool :=
  let reducer (memo : bool) (item : value) :=
    memo && String.eqb (typeof item) "string" in
  match o with
  | VArr _ items => (0 <? length items)%nat && fold_left reducer items true
  | _ => false
  end.

(** ** lib/find.js and lib/reject.js

    Both receive the result of a property read: [None] is [undefined],
    [Some l] an array. *)

Definition find {A : Type} (arr : option (list A)) (testFn : A -> bool)
  : option A :=
  match arr with
  | None => None
  | Some l => List.find testFn l
  end.

Definition reject {A : Type} (arr : option (list A)) (testFn : A -> bool)
  : list A :=
  let targetArray := default [] arr in
  List.filter (fun item => negb (testFn item)) targetArray.

(** ** Registrations, jobs and the world *)

(** The function stored in a registration's [callback]: the listener
    itself, or the closure [oneOffEventListener] that [once] creates, which
    captures [eventName], [listener] and [context]. *)
Inductive callback_fn : Type :=
| Direct (listener : value)
| OneOff (eventName listener context : value).

Module EventListener.
Record t : Type := mk
  { callback : callback_fn;
    listener : value;
    context : value }.
End EventListener.

(** A job queued by [_emitEvent]: the closure passed to [then], holding the
    registration and the arguments of the emission. *)
Record job : Type :=
  { job_listener : EventListener.t;
    job_eventArgs : list value }.

(** One invocation of a caller's listener: [fn.apply(receiver, args)]. *)
Record invocation : Type :=
  { inv_fn : value;
    inv_this : value;
    inv_args : list value }.

Definition invoke (fn receiver : value) (args : list value) : invocation :=
  {| inv_fn := fn; inv_this := receiver; inv_args := args |}.

Record world : Type :=
  { _eventListeners : option (gmap string (list EventListener.t));
    microtasks : list job;
    calls : list invocation }.

Definition empty_world : world :=
  {| _eventListeners := None; microtasks := []; calls := [] |}.

Inductive error : Type :=
| EventNamesError (was : value)
| EventNameError (was : string)
| ListenerError (was : string).


(** How a public method completes: [return this] or [throw]. *)
Inductive completion : Type :=
| ReturnThis
| Throw (e : error).

(** ** The mixin (src/index.js) *)

Definition set_eventListeners
    (h : option (gmap string (list EventListener.t))) (w : world) : world :=
  {| _eventListeners := h; microtasks := microtasks w; calls := calls w |}.

Definition set_microtasks (q : list job) (w : world) : world :=
  {| _eventListeners := _eventListeners w; microtasks := q; calls := calls w |}.

(** [this._eventListeners[eventName]] as an expression: [None] is
    [undefined]. The mixin reads an entry after
    [_ensureListenersHashExists] or from a queued job, and a job is queued
    only once the registry object exists
    ([reachable_queue_needs_registry]); the read through an absent
    registry object, a TypeError in JavaScript, is given the value [None]
    and occurs in no history. *)
Definition read_entry (eventName : value) (w : world)
  : option (list EventListener.t) :=
  match _eventListeners w with
  | Some h => h !! ToString eventName
  | None => None
  end.

(** [this._eventListeners[eventName] = arr], always after
    [_ensureListenersHashExists]. *)
Definition write_entry (eventName : value) (arr : list EventListener.t)
    (w : world) : world :=
  set_eventListeners
    (Some (<[ToString eventName := arr]> (default ∅ (_eventListeners w)))) w.

(** [Promise.resolve().then(fn)]: the job goes to the back of the queue. *)
Definition enqueue (j : job) (w : world) : world :=
  set_microtasks (microtasks w ++ [j]) w.

(** [fn.apply(receiver, args)] for a listener of the caller. *)
Definition apply_listener (fn receiver : value) (args : list value)
    (w : world) : world :=
  {| _eventListeners := _eventListeners w;
     microtasks := microtasks w;
     calls := calls w ++ [ invoke fn receiver args ] |}.

Definition _ensureListenersHashExists (w : world) : world :=
  match _eventListeners w with
  | Some _ => w
  | None => set_eventListeners (Some ∅) w
  end.

Definition _findEventListener (eventName listener context : value)
    (w : world) : option EventListener.t :=
  find (read_entry eventName w)
    (fun eventListener =>
       strict_eq (EventListener.listener eventListener) listener
       && strict_eq (EventListener.context eventListener) context).

(** The optional fourth parameter is [None] when the caller leaves it out
    (as [on] does) and the wrapper closure when [once] passes it;
    [typeof callback === 'function'] holds in the second case only. *)
Definition _addEventListener (eventName listener context : value)
    (callback : option callback_fn) (w : world) : world :=
  let w := _ensureListenersHashExists w in
  let w := write_entry eventName (default [] (read_entry eventName w)) w in
  let existingListener := _findEventListener eventName listener context w in
  match existingListener with
  | Some _ => w
  | None =>
      write_entry eventName
        (default [] (read_entry eventName w)
           ++ [ EventListener.mk
                  (match callback with
                   | Some wrapper => wrapper
                   | None => Direct listener
                   end)
                  listener context ])
        w
  end.

Definition _removeEventListener (eventName listener context : value)
    (w : world) : world :=
  let w := _ensureListenersHashExists w in
  if negb (truthy listener) then write_entry eventName [] w
  else
    write_entry eventName
      (reject (read_entry eventName w)
         (fun eventListener =>
            strict_eq (EventListener.listener eventListener) listener
            && (if String.eqb (typeof context) "undefined" then true
                else strict_eq (EventListener.context eventListener) context)))
      w.

(** [Array.isArray(eventNames) ? eventNames : [ eventNames ]] *)
Definition eventNamesList (eventNames : value) : list value :=
  match eventNames with
  | VArr _ items => items
  | _ => [eventNames]
  end.

(** [list.forEach(function(x) { body }.bind(this))] over the world. *)
Definition forEach {A : Type} (l : list A) (body : A -> world -> world)
    (w : world) : world :=
  fold_left (fun acc x => body x acc) l w.

Definition on (eventNames listener context : value) (w : world)
  : world * completion :=
  if negb (String.eqb (typeof eventNames) "string")
     && negb (isArrayOfStrings eventNames)
  then (w, Throw (EventNamesError eventNames))
  else if negb (String.eqb (typeof listener) "function")
  then (w, Throw (ListenerError (typeof listener)))
  else
    let names := eventNamesList eventNames in
    let w := forEach names
               (fun eventName => _removeEventListener eventName listener context)
               w in
    let w := forEach names
               (fun eventName =>
                  _addEventListener eventName listener context None)
               w in
    (w, ReturnThis).

Definition once (eventName listener context : value) (w : world)
  : world * completion :=
  if negb (String.eqb (typeof eventName) "string")
  then (w, Throw (EventNameError (typeof eventName)))
  else if negb (String.eqb (typeof listener) "function")
  then (w, Throw (ListenerError (typeof listener)))
  else
    let oneOffEventListener := OneOff eventName listener context in
    (_addEventListener eventName listener context (Some oneOffEventListener) w,
     ReturnThis).

Definition off (eventNames listener context : value) (w : world)
  : world * completion :=
  if negb (truthy eventNames)
  then (set_eventListeners (Some ∅) w, ReturnThis)
  else
    (forEach (eventNamesList eventNames)
       (fun eventName => _removeEventListener eventName listener context) w,
     ReturnThis).

Definition _emitEvent (eventName : value) (eventArgs : list value)
    (w : world) : world :=
  let w := _ensureListenersHashExists w in
  match read_entry eventName w with
  | None => w
  | Some registered =>
      forEach registered
        (fun listener =>
           enqueue {| job_listener := listener; job_eventArgs := eventArgs |})
        w
  end.

Definition emit (eventNames : value) (eventArgs : list value) (w : world)
  : world * completion :=
  if negb (String.eqb (typeof eventNames) "string")
     && negb (isArrayOfStrings eventNames)
  then (w, Throw (EventNamesError eventNames))
  else
    (forEach (eventNamesList eventNames)
       (fun eventName => _emitEvent eventName eventArgs) w,
     ReturnThis).

(** ** Running the queued jobs *)

(** The body of [oneOffEventListener], called with receiver [receiver]:
    it looks the registration up again and, when it is still there, calls
    the listener and removes the registration. *)
Definition oneOffEventListener (eventName listener context : value)
    (receiver : value) (args : list value) (w : world) : world :=
  let thisEventListener := _findEventListener eventName listener context w in
  match thisEventListener with
  | Some _ =>
      _removeEventListener eventName listener context
        (apply_listener listener receiver args w)
  | None => w
  end.

(** [listener.callback.apply(listener.context, eventArgs)] *)
Definition run_job (j : job) (w : world) : world :=
  let listener := job_listener j in
  match EventListener.callback listener with
  | Direct fn =>
      apply_listener fn (EventListener.context listener) (job_eventArgs j) w
  | OneOff eventName fn context =>
      oneOffEventListener eventName fn context
        (EventListener.context listener) (job_eventArgs j) w
  end.

(** The engine takes the oldest job off the queue and runs it. *)
Definition run_next (w : world) : world :=
  match microtasks w with
  | [] => w
  | j :: rest => run_job j (set_microtasks rest w)
  end.

(** One scheduler turn: the queue is run until it is empty. No job of this
    program queues another one, so the jobs to run are those now queued. *)
Definition drain (w : world) : world :=
  fold_left (fun acc j => run_job j acc) (microtasks w)
    (set_microtasks [] w).

(** The registrations under a name, an absent entry read as no
    registration. *)
Definition listeners_of (w : world) (name : string)
  : list EventListener.t :=
  default [] (read_entry (VStr name) w).

(** The two tests the mixin passes to [find] and [reject]. *)
Definition same_pair (listener context : value) (el : EventListener.t) : bool :=
  strict_eq (EventListener.listener el) listener
  && strict_eq (EventListener.context el) context.

Definition removal_test (listener context : value) (el : EventListener.t)
  : bool :=
  strict_eq (EventListener.listener el) listener
  && (if String.eqb (typeof context) "undefined" then true
      else strict_eq (EventListener.context el) context).

(** What [_removeEventListener] leaves of an entry. *)
Definition removed (listener context : value) (l : list EventListener.t)
  : list EventListener.t :=
  if truthy listener
  then List.filter (fun el => negb (removal_test listener context el)) l
  else [].

(** What [_addEventListener] makes of an entry. *)
Definition added (listener context : value) (callback : option callback_fn)
    (l : list EventListener.t) : list EventListener.t :=
  match List.find (same_pair listener context) l with
  | Some _ => l
  | None =>
      l ++ [ EventListener.mk
               (match callback with Some wrapper => wrapper
                               | None => Direct listener end)
               listener context ]
  end.

Definition job_of (eventArgs : list value) (el : EventListener.t) : job :=
  {| job_listener := el; job_eventArgs := eventArgs |}.

(** The jobs one [emit] adds to the queue: for each name in turn, one job
    for each registration under it. *)
Definition scheduled (names : list value) (eventArgs : list value)
    (w : world) : list job :=
  List.flat_map
    (fun eventName =>
       List.map (job_of eventArgs) (listeners_of w (ToString eventName)))
    names.

(** ** Histories of an emitter

    What can happen to one emitter: its four public methods are called with
    any arguments, and the engine runs the oldest queued job. A call that
    throws leaves the caller free to go on. *)
Inductive action : Type :=
| Call_on (eventNames listener context : value)
| Call_once (eventName listener context : value)
| Call_off (eventNames listener context : value)
| Call_emit (eventNames : value) (eventArgs : list value)
| Run_next.

Definition step (w : world) (a : action) : world :=
  match a with
  | Call_on eventNames listener context =>
      fst (on eventNames listener context w)
  | Call_once eventName listener context =>
      fst (once eventName listener context w)
  | Call_off eventNames listener context =>
      fst (off eventNames listener context w)
  | Call_emit eventNames eventArgs => fst (emit eventNames eventArgs w)
  | Run_next => run_next w
  end.

Definition run (actions : list action) (w : world) : world :=
  fold_left step actions w.

Definition reachable (w : world) : Prop :=
  exists actions, w = run actions empty_world.

(** A registration as the mixin builds it under the name [n]: the listener
    is a function, and the callback is the listener or the wrapper closed
    over this very name, listener and context. *)
Definition well_formed (n : string) (el : EventListener.t) : Prop :=
  typeof (EventListener.listener el) = "function"
  /\ match EventListener.callback el with
     | Direct fn => fn = EventListener.listener el
     | OneOff k l c =>
         ToString k = n
         /\ l = EventListener.listener el
         /\ c = EventListener.context el
     end.

(** No registration of the list has the (listener, context) pair of a later
    one. *)
Fixpoint distinct_pairs (l : list EventListener.t) : Prop :=
  match l with
  | [] => True
  | el :: rest =>
      List.find
        (same_pair (EventListener.listener el) (EventListener.context el))
        rest = None
      /\ distinct_pairs rest
  end.

(** The invocations of [fn] in a log, and those with a given receiver. *)
Definition calls_to (fn : value) (log : list invocation) : list invocation :=
  List.filter (fun i => strict_eq (inv_fn i) fn) log.

Definition calls_on (fn receiver : value) (log : list invocation)
  : list invocation :=
  List.filter
    (fun i => strict_eq (inv_fn i) fn && strict_eq (inv_this i) receiver) log.

(** The two conditions the public methods check before doing anything. *)
Definition valid_eventNames (eventNames : value) : bool :=
  String.eqb (typeof eventNames) "string" || isArrayOfStrings eventNames.

Definition is_function (v : value) : bool :=
  String.eqb (typeof v) "function".

Definition is_string (v : value) : bool :=
  String.eqb (typeof v) "string".

(** The invariant of the histories: every registration and every queued job
    is as the mixin builds them, and no entry holds a pair twice. *)
Definition good_entry (n : string) (l : list EventListener.t) : Prop :=
  Forall (well_formed n) l /\ distinct_pairs l.

Definition invariant (w : world) : Prop :=
  (forall n, good_entry n (listeners_of w n))
  /\ Forall (fun j => exists n, well_formed n (job_listener j)) (microtasks w)
  /\ (_eventListeners w = None -> microtasks w = []).

(** The arguments of the emissions in a history. *)
Definition emitted (actions : list action) : list (list value) :=
  List.flat_map
    (fun a => match a with
              | Call_emit _ eventArgs => [eventArgs]
              | _ => []
              end)
    actions.

(** A history that only emits the event [e] and lets queued jobs run. *)
Definition emits_only (e : string) (actions : list action) : Prop :=
  Forall (fun a => match a with
                   | Call_emit eventNames _ => eventNames = VStr e
                   | Run_next => True
                   | _ => False
                   end)
    actions.

(** The registrations of the listener [fn] in an entry. *)
Definition registrations_of (fn : value) (l : list EventListener.t)
  : list EventListener.t :=
  List.filter (fun el => strict_eq (EventListener.listener el) fn) l.

(** The registry object exists. *)
Definition has_registry (w : world) : Prop := is_Some (_eventListeners w).

(** The registration that [once(e, f, c)] and the one that [on(e, f, c)]
    build. *)
Definition once_registration (e : string) (f c : value) : EventListener.t :=
  EventListener.mk (OneOff (VStr e) f c) f c.

Definition on_registration (f c : value) : EventListener.t :=
  EventListener.mk (Direct f) f c.

(** The queued jobs that hold a registration of the listener [fn]. *)
Definition jobs_of (fn : value) (q : list job) : list job :=
  List.filter
    (fun j => strict_eq (EventListener.listener (job_listener j)) fn) q.

(** Where a listener [f] registered by [once(e, f, c)] stands after the
    emissions [sofar] of [e], the log having held the calls [base] of [f]
    at the registration: every queued job of [f] holds the wrapper's
    registration, and either the registration is still there, [f] has not
    been called and its queued jobs are those of the emissions, or the
    registration is gone and [f] has been called once, with the arguments of
    the first emission. *)
Definition once_pending (e : string) (f c : value) (base : list invocation)
    (sofar : list (list value)) (w : world) : Prop :=
  Forall (fun j => job_listener j = once_registration e f c)
    (jobs_of f (microtasks w))
  /\ ((registrations_of f (listeners_of w e) = [once_registration e f c]
       /\ calls_to f (calls w) = base
       /\ List.map job_eventArgs (jobs_of f (microtasks w)) = sofar)
      \/ (registrations_of f (listeners_of w e) = []
          /\ exists a rest,
              sofar = a :: rest
              /\ calls_to f (calls w) = base ++ [invoke f c a])).

(** Where a listener [f] registered by [on(e, f, c)] stands after the
    emissions [sofar] of [e]: the registration is there, every queued job of
    [f] holds it, and the calls of [f] made and still queued are those of
    the emissions, in their order. *)
Definition on_standing (e : string) (f c : value) (base : list invocation)
    (sofar : list (list value)) (w : world) : Prop :=
  registrations_of f (listeners_of w e) = [on_registration f c]
  /\ Forall (fun j => job_listener j = on_registration f c)
       (jobs_of f (microtasks w))
  /\ calls_to f (calls w)
       ++ List.map (fun j => invoke f c (job_eventArgs j))
            (jobs_of f (microtasks w))
     = base ++ List.map (invoke f c) sofar.

(** ** lib/find.js and lib/reject.js on any argument

    The two helpers as they are exported: [arr] is an array ([Some l]) or
    any other value ([None]), [testFn] is a function, given by what it
    returns, or any other value ([None]). The mixin calls them with an entry
    and a closure. *)
Module Lib.

(** The [for] loop of [find], from index [i], with [steps] elements left. *)
Fixpoint find_loop {A : Type} (arr : list A) (testFn : A -> value)
    (i steps : nat) : option A :=
  match steps with
  | O => None
  | S steps' =>
      match arr !! i with
      | Some item =>
          if truthy (testFn item) then Some item
          else find_loop arr testFn (S i) steps'
      | None => None
      end
  end.

Definition find {A : Type} (arr : option (list A))
    (testFn : option (A -> value)) : option A :=
  match arr, testFn with
  | Some l, Some fn => find_loop l fn 0 (length l)
  | _, _ => None
  end.

Definition reject {A : Type} (arr : option (list A))
    (testFn : option (A -> value)) : list A :=
  match arr, testFn with
  | Some targetArray, Some fn =>
      List.filter (fun item => negb (truthy (fn item))) targetArray
  | _, _ => []
  end.

End Lib.

(** A registration whose callback is its listener: one made by [on]. *)
Definition persistent (el : EventListener.t) : Prop :=
  EventListener.callback el = Direct (EventListener.listener el).

(** The call a queued job of a persistent registration makes. *)
Definition job_call (j : job) : invocation :=
  invoke (EventListener.listener (job_listener j))
    (EventListener.context (job_listener j)) (job_eventArgs j).

(** Where a listener registered by [once(e, f, c)] stands once its
    registration has been removed: [f] has no registration under [e], and
    its queued jobs all hold the wrapper's registration. *)
Definition once_cancelled (e : string) (f c : value) (w : world) : Prop :=
  registrations_of f (listeners_of w e) = []
  /\ Forall (fun j => job_listener j = once_registration e f c)
       (jobs_of f (microtasks w)).

(** ** Basic facts about the registry *)

Section Registry.
Implicit Types (w : world) (k listener context : value) (n : string).

Lemma listeners_of_ensure w n :
  listeners_of (_ensureListenersHashExists w) n = listeners_of w n.
Proof.
  destruct w as [[h|] q cs]; [done|].
  unfold listeners_of, read_entry; simpl. by rewrite lookup_empty.
Qed.

Lemma read_entry_default w k :
  default [] (read_entry k w) = listeners_of w (ToString k).
Proof. reflexivity. Qed.

Lemma listeners_of_write w k arr n :
  listeners_of (write_entry k arr w) n
  = if decide (ToString k = n) then arr else listeners_of w n.
Proof.
  destruct w as [h q cs].
  unfold listeners_of, read_entry, write_entry; simpl.
  rewrite lookup_insert. case_decide; [done|].
  destruct h; simpl; [done|]. by rewrite lookup_empty.
Qed.

Lemma find_read_entry w k listener context :
  _findEventListener k listener context w
  = List.find (same_pair listener context) (listeners_of w (ToString k)).
Proof.
  destruct w as [[h|] q cs];
    unfold _findEventListener, find, listeners_of, read_entry; simpl;
    [by destruct (h !! ToString k)|done].
Qed.

Lemma listeners_of_remove w k listener context n :
  listeners_of (_removeEventListener k listener context w) n
  = if decide (ToString k = n)
    then removed listener context (listeners_of w n)
    else listeners_of w n.
Proof.
  unfold _removeEventListener, removed.
  destruct (decide (ToString k = n)) as [<-|Hne];
    destruct (truthy listener); simpl;
    rewrite listeners_of_write, ?decide_True, ?decide_False by done;
    rewrite ?listeners_of_ensure; try done.
  unfold reject. by rewrite read_entry_default, listeners_of_ensure.
Qed.

Lemma listeners_of_add w k listener context callback n :
  listeners_of (_addEventListener k listener context callback w) n
  = if decide (ToString k = n)
    then added listener context callback (listeners_of w n)
    else listeners_of w n.
Proof.
  unfold _addEventListener, added.
  rewrite find_read_entry, !read_entry_default.
  rewrite !(listeners_of_write _ _ _ (ToString k)), !decide_True by done.
  rewrite !listeners_of_ensure.
  destruct (decide (ToString k = n)) as [<-|Hne].
  - destruct (List.find _ _) eqn:Hfound;
      by rewrite !listeners_of_write, !decide_True, ?listeners_of_ensure.
  - destruct (List.find _ _);
      by rewrite !listeners_of_write, !decide_False, ?listeners_of_ensure.
Qed.

Lemma microtasks_remove w k listener context :
  microtasks (_removeEventListener k listener context w) = microtasks w.
Proof.
  unfold _removeEventListener.
  by destruct w as [[h|] q cs], (truthy listener).
Qed.

Lemma calls_remove w k listener context :
  calls (_removeEventListener k listener context w) = calls w.
Proof.
  unfold _removeEventListener.
  by destruct w as [[h|] q cs], (truthy listener).
Qed.

Lemma microtasks_add w k listener context callback :
  microtasks (_addEventListener k listener context callback w)
  = microtasks w.
Proof.
  unfold _addEventListener.
  destruct (_findEventListener _ _ _ _); by destruct w as [[h|] q cs].
Qed.

Lemma calls_add w k listener context callback :
  calls (_addEventListener k listener context callback w) = calls w.
Proof.
  unfold _addEventListener.
  destruct (_findEventListener _ _ _ _); by destruct w as [[h|] q cs].
Qed.

End Registry.

(** ** The tests and the two entry transformers *)

Section Entries.
Implicit Types (a b c listener context : value) (el : EventListener.t)
  (l : list EventListener.t).

Lemma strict_eq_refl a : strict_eq a a = true.
Proof.
  destruct a; simpl; auto using Nat.eqb_refl, Z.eqb_refl, String.eqb_refl.
  by destruct b.
Qed.

Lemma strict_eq_sym a b : strict_eq a b = strict_eq b a.
Proof.
  destruct a, b; simpl; auto using Nat.eqb_sym, Z.eqb_sym, String.eqb_sym.
  by destruct b, b0.
Qed.

Lemma strict_eq_trans a b c :
  strict_eq a b = true -> strict_eq b c = true -> strict_eq a c = true.
Proof.
  destruct a, b; simpl; try discriminate; destruct c; simpl;
    try discriminate; try done.
  - destruct b, b0, b1; done.
  - rewrite !Z.eqb_eq. congruence.
  - rewrite !String.eqb_eq. congruence.
  - rewrite !Nat.eqb_eq. congruence.
  - rewrite !Nat.eqb_eq. congruence.
  - rewrite !Nat.eqb_eq. congruence.
Qed.

Lemma same_pair_removal_test listener context el :
  same_pair listener context el = true ->
  removal_test listener context el = true.
Proof.
  unfold same_pair, removal_test.
  destruct (strict_eq (EventListener.listener el) listener); [|done].
  simpl. intros ->. by destruct (String.eqb _ _).
Qed.

Lemma removal_test_listener listener context el :
  removal_test listener context el = true ->
  strict_eq (EventListener.listener el) listener = true.
Proof. unfold removal_test. by intros [? _]%andb_true_iff. Qed.

(** With a context that is not [undefined] the removal test is the
    exact one. *)
Lemma removal_test_defined listener context el :
  typeof context <> "undefined" ->
  removal_test listener context el = same_pair listener context el.
Proof.
  intros Hdef. unfold removal_test, same_pair.
  destruct (String.eqb_spec (typeof context) "undefined"); [done|done].
Qed.

Lemma find_none_filter {A} (p : A -> bool) (xs : list A) :
  List.find p xs = None <-> List.filter p xs = [].
Proof.
  induction xs as [|x xs IH]; simpl; [done|].
  destruct (p x); [split; discriminate|done].
Qed.

Lemma filter_filter_same {A} (p : A -> bool) (xs : list A) :
  List.filter p (List.filter p xs) = List.filter p xs.
Proof.
  induction xs as [|x xs IH]; simpl; [done|].
  destruct (p x) eqn:Hp; simpl; rewrite ?Hp, IH; done.
Qed.

Lemma removed_idem listener context l :
  removed listener context (removed listener context l)
  = removed listener context l.
Proof.
  unfold removed. destruct (truthy listener); [|done].
  apply filter_filter_same.
Qed.

Lemma find_same_pair_removed listener context l :
  typeof listener = "function" ->
  List.find (same_pair listener context) (removed listener context l) = None.
Proof.
  intros Hfn. apply find_none_filter. unfold removed.
  replace (truthy listener) with true by (by destruct listener).
  induction l as [|el l IH]; simpl; [done|].
  destruct (removal_test listener context el) eqn:Hrm; simpl; [done|].
  destruct (same_pair listener context el) eqn:Hsame; [|done].
  apply same_pair_removal_test in Hsame. congruence.
Qed.

Lemma find_same_pair_app_new listener context cb l :
  List.find (same_pair listener context)
    (l ++ [EventListener.mk cb listener context]) <> None.
Proof.
  induction l as [|el l IH]; simpl.
  - unfold same_pair; simpl. by rewrite !strict_eq_refl.
  - by destruct (same_pair listener context el).
Qed.

Lemma added_idem listener context cb cb' l :
  added listener context cb' (added listener context cb l)
  = added listener context cb l.
Proof.
  unfold added.
  destruct (List.find _ l) eqn:Hfound; [by rewrite Hfound|].
  destruct (List.find _ (l ++ _)) eqn:Hnew; [done|].
  by apply find_same_pair_app_new in Hnew.
Qed.

End Entries.

(** ** The loops of the public methods *)

Section Loops.
Implicit Types (w : world) (k listener context : value) (n : string)
  (names : list value).

Lemma forEach_cons {A} (x : A) xs body w :
  forEach (x :: xs) body w = forEach xs body (body x w).
Proof. reflexivity. Qed.

Lemma listeners_of_forEach_remove names listener context w n :
  listeners_of
    (forEach names
       (fun eventName => _removeEventListener eventName listener context) w)
    n
  = if decide (n ∈ List.map ToString names)
    then removed listener context (listeners_of w n)
    else listeners_of w n.
Proof.
  revert w. induction names as [|k names IH]; intros w.
  - case_decide as Hin; [by apply elem_of_nil in Hin|done].
  - rewrite forEach_cons, IH, listeners_of_remove.
    change (List.map ToString (k :: names))
      with (ToString k :: List.map ToString names).
    repeat case_decide; subst; rewrite ?removed_idem; try done;
      exfalso; set_solver.
Qed.

Lemma listeners_of_forEach_add names listener context callback w n :
  listeners_of
    (forEach names
       (fun eventName =>
          _addEventListener eventName listener context callback) w)
    n
  = if decide (n ∈ List.map ToString names)
    then added listener context callback (listeners_of w n)
    else listeners_of w n.
Proof.
  revert w. induction names as [|k names IH]; intros w.
  - case_decide as Hin; [by apply elem_of_nil in Hin|done].
  - rewrite forEach_cons, IH, listeners_of_add.
    change (List.map ToString (k :: names))
      with (ToString k :: List.map ToString names).
    repeat case_decide; subst; rewrite ?added_idem; try done;
      exfalso; set_solver.
Qed.

Lemma forEach_remove_rest names listener context w :
  microtasks
    (forEach names
       (fun eventName => _removeEventListener eventName listener context) w)
  = microtasks w
  /\ calls
       (forEach names
          (fun eventName => _removeEventListener eventName listener context)
          w)
     = calls w.
Proof.
  revert w. induction names as [|k names IH]; intros w; [done|].
  rewrite forEach_cons.
  destruct (IH (_removeEventListener k listener context w)) as [-> ->].
  by rewrite microtasks_remove, calls_remove.
Qed.

Lemma forEach_add_rest names listener context callback w :
  microtasks
    (forEach names
       (fun eventName =>
          _addEventListener eventName listener context callback) w)
  = microtasks w
  /\ calls
       (forEach names
          (fun eventName =>
             _addEventListener eventName listener context callback) w)
     = calls w.
Proof.
  revert w. induction names as [|k names IH]; intros w; [done|].
  rewrite forEach_cons.
  destruct (IH (_addEventListener k listener context callback w))
    as [-> ->].
  by rewrite microtasks_add, calls_add.
Qed.

Lemma forEach_enqueue (registered : list EventListener.t) eventArgs w :
  forEach registered
    (fun el =>
       enqueue {| job_listener := el; job_eventArgs := eventArgs |}) w
  = {| _eventListeners := _eventListeners w;
       microtasks := microtasks w ++ List.map (job_of eventArgs) registered;
       calls := calls w |}.
Proof.
  revert w. induction registered as [|el registered IH]; intros w.
  - simpl. rewrite app_nil_r. by destruct w.
  - rewrite forEach_cons, IH. simpl. by rewrite <- app_assoc.
Qed.

Lemma listeners_of_emitEvent k eventArgs w n :
  listeners_of (_emitEvent k eventArgs w) n = listeners_of w n.
Proof.
  unfold _emitEvent. destruct (read_entry _ _);
    rewrite ?forEach_enqueue; apply listeners_of_ensure.
Qed.

Lemma microtasks_emitEvent k eventArgs w :
  microtasks (_emitEvent k eventArgs w)
  = microtasks w
      ++ List.map (job_of eventArgs) (listeners_of w (ToString k)).
Proof.
  unfold _emitEvent.
  rewrite <- (listeners_of_ensure w), <- read_entry_default.
  destruct (read_entry _ _); rewrite ?forEach_enqueue; simpl;
    rewrite ?app_nil_r; by destruct w as [[h|] q cs].
Qed.

Lemma calls_emitEvent k eventArgs w :
  calls (_emitEvent k eventArgs w) = calls w.
Proof.
  unfold _emitEvent.
  destruct (read_entry _ _); rewrite ?forEach_enqueue; simpl;
    by destruct w as [[h|] q cs].
Qed.

Lemma forEach_emitEvent names eventArgs w :
  (forall n,
      listeners_of
        (forEach names (fun eventName => _emitEvent eventName eventArgs) w) n
      = listeners_of w n)
  /\ microtasks
       (forEach names (fun eventName => _emitEvent eventName eventArgs) w)
     = microtasks w ++ scheduled names eventArgs w
  /\ calls
       (forEach names (fun eventName => _emitEvent eventName eventArgs) w)
     = calls w.
Proof.
  revert w. induction names as [|k names IH]; intros w.
  - unfold scheduled. simpl. by rewrite app_nil_r.
  - rewrite forEach_cons.
    destruct (IH (_emitEvent k eventArgs w)) as (Hl & -> & ->).
    split; [|split].
    + intros n. by rewrite Hl, listeners_of_emitEvent.
    + rewrite microtasks_emitEvent, <- app_assoc. unfold scheduled. simpl.
      do 2 f_equal.
      apply flat_map_ext. intros a. by rewrite listeners_of_emitEvent.
    + apply calls_emitEvent.
Qed.

End Loops.

(** ** The public methods, case by case *)

Lemma on_cases w eventNames listener context :
  on eventNames listener context w
  = if negb (valid_eventNames eventNames)
    then (w, Throw (EventNamesError eventNames))
    else if negb (is_function listener)
    then (w, Throw (ListenerError (typeof listener)))
    else
      (forEach (eventNamesList eventNames)
         (fun eventName => _addEventListener eventName listener context None)
         (forEach (eventNamesList eventNames)
            (fun eventName =>
               _removeEventListener eventName listener context) w),
       ReturnThis).
Proof.
  unfold on, valid_eventNames, is_function. by rewrite negb_orb.
Qed.

Lemma once_cases w eventName listener context :
  once eventName listener context w
  = if negb (is_string eventName)
    then (w, Throw (EventNameError (typeof eventName)))
    else if negb (is_function listener)
    then (w, Throw (ListenerError (typeof listener)))
    else
      (_addEventListener eventName listener context
         (Some (OneOff eventName listener context)) w,
       ReturnThis).
Proof. reflexivity. Qed.

Lemma emit_cases w eventNames eventArgs :
  emit eventNames eventArgs w
  = if negb (valid_eventNames eventNames)
    then (w, Throw (EventNamesError eventNames))
    else
      (forEach (eventNamesList eventNames)
         (fun eventName => _emitEvent eventName eventArgs) w,
       ReturnThis).
Proof. unfold emit, valid_eventNames. by rewrite negb_orb. Qed.


Lemma typeof_undefined (v : value) :
  String.eqb (typeof v) "undefined" = true <-> v = VUndefined.
Proof. destruct v; simpl; split; intros; congruence. Qed.

Lemma listeners_of_reset w n :
  listeners_of (set_eventListeners (Some ∅) w) n = [].
Proof. unfold listeners_of, read_entry. simpl. by rewrite lookup_empty. Qed.

Lemma removed_any_context listener l :
  truthy listener = true ->
  removed listener VUndefined l
  = List.filter
      (fun el => negb (strict_eq (EventListener.listener el) listener)) l.
Proof.
  intros Ht. unfold removed, removal_test. rewrite Ht. simpl.
  apply filter_ext. intros el. by rewrite andb_true_r.
Qed.

Lemma removed_exact listener context l :
  truthy listener = true -> context <> VUndefined ->
  removed listener context l
  = List.filter (fun el => negb (same_pair listener context el)) l.
Proof.
  intros Ht Hdef. unfold removed. rewrite Ht.
  apply filter_ext. intros el. rewrite removal_test_defined; [done|].
  intros Hty. apply Hdef, typeof_undefined. by rewrite Hty.
Qed.



Lemma on_valid w eventNames listener context :
  valid_eventNames eventNames = true -> is_function listener = true ->
  snd (on eventNames listener context w) = ReturnThis
  /\ (forall n,
        listeners_of (fst (on eventNames listener context w)) n
        = if decide (n ∈ List.map ToString (eventNamesList eventNames))
          then added listener context None
                 (removed listener context (listeners_of w n))
          else listeners_of w n)
  /\ microtasks (fst (on eventNames listener context w)) = microtasks w
  /\ calls (fst (on eventNames listener context w)) = calls w.
Proof.
  intros Hn Hf. rewrite on_cases, Hn, Hf. simpl. split; [done|].
  split; [|split].
  - intros n. rewrite listeners_of_forEach_add, listeners_of_forEach_remove.
    by case_decide.
  - destruct (forEach_add_rest (eventNamesList eventNames) listener context
                None
                (forEach (eventNamesList eventNames)
                   (fun eventName =>
                      _removeEventListener eventName listener context) w))
      as [-> _].
    apply forEach_remove_rest.
  - destruct (forEach_add_rest (eventNamesList eventNames) listener context
                None
                (forEach (eventNamesList eventNames)
                   (fun eventName =>
                      _removeEventListener eventName listener context) w))
      as [_ ->].
    apply forEach_remove_rest.
Qed.

Lemma off_named w eventNames listener context :
  truthy eventNames = true ->
  off eventNames listener context w
  = (forEach (eventNamesList eventNames)
       (fun eventName => _removeEventListener eventName listener context) w,
     ReturnThis).
Proof. unfold off. by intros ->. Qed.

Lemma off_reset w eventNames listener context :
  truthy eventNames = false ->
  off eventNames listener context w
  = (set_eventListeners (Some ∅) w, ReturnThis).
Proof. unfold off. by intros ->. Qed.



(** ** Running jobs *)

Section Jobs.
Implicit Types (w : world) (j : job) (n : string) (q : list job).

Lemma listeners_of_set_microtasks q w n :
  listeners_of (set_microtasks q w) n = listeners_of w n.
Proof. reflexivity. Qed.

Lemma listeners_of_apply fn receiver args w n :
  listeners_of (apply_listener fn receiver args w) n = listeners_of w n.
Proof. reflexivity. Qed.

Lemma microtasks_run_job j w :
  microtasks (run_job j w) = microtasks w.
Proof.
  unfold run_job, oneOffEventListener.
  destruct (EventListener.callback _); [done|].
  destruct (_findEventListener _ _ _ _); [|done].
  by rewrite microtasks_remove.
Qed.

(** What a job does to the registry. *)
Lemma listeners_of_run_job j w n :
  listeners_of (run_job j w) n
  = match EventListener.callback (job_listener j) with
    | Direct _ => listeners_of w n
    | OneOff k l c =>
        match List.find (same_pair l c) (listeners_of w (ToString k)) with
        | Some _ =>
            if decide (ToString k = n)
            then removed l c (listeners_of w n)
            else listeners_of w n
        | None => listeners_of w n
        end
    end.
Proof.
  unfold run_job, oneOffEventListener.
  destruct (EventListener.callback _) as [fn|k l c]; [done|].
  rewrite find_read_entry.
  destruct (List.find _ _); [|done].
  by rewrite listeners_of_remove.
Qed.

(** What a job adds to the log. *)
Lemma calls_run_job j w :
  calls (run_job j w)
  = calls w
      ++ match EventListener.callback (job_listener j) with
         | Direct fn =>
             [ invoke fn (EventListener.context (job_listener j))
                 (job_eventArgs j) ]
         | OneOff k l c =>
             match
               List.find (same_pair l c) (listeners_of w (ToString k))
             with
             | Some _ =>
                 [ invoke l (EventListener.context (job_listener j))
                     (job_eventArgs j) ]
             | None => []
             end
         end.
Proof.
  unfold run_job, oneOffEventListener.
  destruct (EventListener.callback _) as [fn|k l c]; [done|].
  rewrite find_read_entry.
  destruct (List.find _ _); [|by rewrite app_nil_r].
  by rewrite calls_remove.
Qed.

Lemma run_job_set_microtasks q j w :
  run_job j (set_microtasks q w) = set_microtasks q (run_job j w).
Proof.
  unfold run_job, oneOffEventListener.
  destruct (EventListener.callback _) as [fn|k l c]; [done|].
  rewrite !find_read_entry, listeners_of_set_microtasks.
  destruct (List.find _ _); [|done].
  unfold _removeEventListener.
  by destruct w as [[h|] q0 cs], (truthy l).
Qed.

Lemma run_next_cons j q w :
  microtasks w = j :: q ->
  run_next w = run_job j (set_microtasks q w).
Proof. unfold run_next. by intros ->. Qed.

Lemma run_next_nil w : microtasks w = [] -> run_next w = w.
Proof. unfold run_next. by intros ->. Qed.

(** [drain] is the engine running the queue job after job. *)
Lemma drain_run_next w :
  drain w = run (List.repeat Run_next (length (microtasks w))) w.
Proof.
  unfold drain.
  remember (microtasks w) as q eqn:Hq. revert w Hq.
  induction q as [|j q IH]; intros w Hq.
  - simpl. destruct w; simpl in *. by subst.
  - simpl. rewrite (run_next_cons j q) by done.
    rewrite <- IH.
    + by rewrite !run_job_set_microtasks.
    + by rewrite microtasks_run_job.
Qed.

Lemma microtasks_drain w : microtasks (drain w) = [].
Proof.
  unfold drain.
  assert (H : microtasks (set_microtasks [] w) = []) by done.
  revert H. generalize (set_microtasks [] w).
  induction (microtasks w) as [|j q IH]; intros w0 H0; [done|].
  simpl. apply IH. by rewrite microtasks_run_job.
Qed.

End Jobs.

(** ** The invariant of the histories *)

Section Invariant.
Implicit Types (w : world) (n : string) (l : list EventListener.t)
  (el : EventListener.t).

Lemma find_none_Forall {A} (p : A -> bool) (xs : list A) :
  List.find p xs = None <-> Forall (fun x => p x = false) xs.
Proof.
  induction xs as [|x xs IH]; simpl.
  - split; [constructor|done].
  - destruct (p x) eqn:Hp.
    + split; [done|]. intros H. inversion H; congruence.
    + rewrite IH. split; [by constructor|]. intros H. by inversion H.
Qed.

Lemma Forall_list_filter {A} (P : A -> Prop) (p : A -> bool) (xs : list A) :
  Forall P xs -> Forall P (List.filter p xs).
Proof.
  induction 1 as [|x xs Hx Hxs IH]; simpl; [constructor|].
  destruct (p x); [by constructor|done].
Qed.

Lemma distinct_pairs_filter (p : EventListener.t -> bool) l :
  distinct_pairs l -> distinct_pairs (List.filter p l).
Proof.
  induction l as [|el l IH]; simpl; [done|].
  intros [Hnone Hrest]. destruct (p el); simpl; [|by apply IH].
  split; [|by apply IH].
  apply find_none_Forall, Forall_list_filter. by apply find_none_Forall.
Qed.

Lemma distinct_pairs_snoc l cb listener context :
  distinct_pairs l ->
  List.find (same_pair listener context) l = None ->
  distinct_pairs (l ++ [EventListener.mk cb listener context]).
Proof.
  induction l as [|el l IH]; simpl; [done|].
  intros [Hnone Hrest] Hfind.
  destruct (same_pair listener context el) eqn:Hel; [done|].
  split; [|by apply IH].
  apply find_none_Forall, Forall_app. split; [by apply find_none_Forall|].
  constructor; [|constructor].
  unfold same_pair in *. simpl.
  by rewrite (strict_eq_sym listener), (strict_eq_sym context).
Qed.

Lemma good_entry_nil n : good_entry n [].
Proof. split; [constructor|done]. Qed.

Lemma good_entry_removed n l listener context :
  good_entry n l -> good_entry n (removed listener context l).
Proof.
  intros [Hwf Hd]. unfold removed.
  destruct (truthy listener); [|apply good_entry_nil].
  split; [by apply Forall_list_filter|by apply distinct_pairs_filter].
Qed.

Lemma good_entry_added n l listener context callback :
  good_entry n l ->
  well_formed n
    (EventListener.mk
       (match callback with Some wrapper => wrapper
                       | None => Direct listener end)
       listener context) ->
  good_entry n (added listener context callback l).
Proof.
  intros [Hwf Hd] Hnew. unfold added.
  destruct (List.find _ l) eqn:Hfind; [done|].
  split.
  - apply Forall_app. split; [done|]. by constructor.
  - by apply distinct_pairs_snoc.
Qed.

Lemma well_formed_direct n listener context :
  is_function listener = true ->
  well_formed n (EventListener.mk (Direct listener) listener context).
Proof.
  intros Hfn. split; [|done]. simpl.
  unfold is_function in Hfn. by apply String.eqb_eq.
Qed.

Lemma well_formed_one_off eventName listener context :
  is_function listener = true ->
  well_formed (ToString eventName)
    (EventListener.mk (OneOff eventName listener context) listener context).
Proof.
  intros Hfn. split; [|done]. simpl.
  unfold is_function in Hfn. by apply String.eqb_eq.
Qed.

Lemma has_registry_remove k listener context w :
  has_registry (_removeEventListener k listener context w).
Proof.
  unfold _removeEventListener, has_registry.
  by destruct (truthy listener).
Qed.

Lemma has_registry_add k listener context callback w :
  has_registry (_addEventListener k listener context callback w).
Proof.
  unfold _addEventListener, has_registry.
  by destruct (_findEventListener _ _ _ _).
Qed.

Lemma has_registry_emitEvent k eventArgs w :
  has_registry (_emitEvent k eventArgs w).
Proof.
  unfold _emitEvent, has_registry.
  destruct (read_entry _ _); rewrite ?forEach_enqueue;
    by destruct w as [[h|] q cs].
Qed.

Lemma has_registry_forEach {A} (xs : list A) (body : A -> world -> world) w :
  (forall x w0, has_registry (body x w0)) ->
  xs <> [] \/ has_registry w ->
  has_registry (forEach xs body w).
Proof.
  intros Hbody. revert w. induction xs as [|x xs IH]; intros w Hor.
  - by destruct Hor.
  - rewrite forEach_cons. apply IH. right. apply Hbody.
Qed.

Lemma has_registry_run_job j w :
  has_registry w -> has_registry (run_job j w).
Proof.
  unfold run_job, oneOffEventListener.
  destruct (EventListener.callback _); [done|].
  destruct (_findEventListener _ _ _ _); [|done].
  intros _. apply has_registry_remove.
Qed.

Lemma eventNamesList_valid eventNames :
  valid_eventNames eventNames = true -> eventNamesList eventNames <> [].
Proof.
  unfold valid_eventNames, isArrayOfStrings.
  destruct eventNames as [| | | | | | |id items]; try done.
  by destruct items.
Qed.

Lemma invariant_empty : invariant empty_world.
Proof.
  split; [|split]; [|constructor|done].
  intros n. apply good_entry_nil.
Qed.

Lemma invariant_on w eventNames listener context :
  invariant w -> invariant (fst (on eventNames listener context w)).
Proof.
  intros (Hentries & Hjobs & Hreg).
  destruct (valid_eventNames eventNames) eqn:Hvalid;
    [|by rewrite on_cases, Hvalid].
  destruct (is_function listener) eqn:Hfn;
    [|by rewrite on_cases, Hvalid, Hfn].
  destruct (on_valid w eventNames listener context Hvalid Hfn)
    as (_ & Hl & Hq & _).
  split; [|split].
  - intros n. rewrite Hl. case_decide; [|done].
    apply good_entry_added; [by apply good_entry_removed|].
    by apply well_formed_direct.
  - by rewrite Hq.
  - intros Hnone. exfalso.
    assert (Hhas : has_registry (fst (on eventNames listener context w))).
    { rewrite on_cases, Hvalid, Hfn. simpl.
      apply has_registry_forEach.
      - intros. apply has_registry_add.
      - left. by apply eventNamesList_valid. }
    unfold has_registry in Hhas. rewrite Hnone in Hhas.
    by destruct Hhas.
Qed.

Lemma invariant_once w eventName listener context :
  invariant w -> invariant (fst (once eventName listener context w)).
Proof.
  intros (Hentries & Hjobs & Hreg). rewrite once_cases.
  destruct (is_string eventName); [|done].
  destruct (is_function listener) eqn:Hfn; [|done].
  simpl. split; [|split].
  - intros n. rewrite listeners_of_add.
    case_decide as Hn; [|done]. subst n.
    apply good_entry_added; [done|]. by apply well_formed_one_off.
  - by rewrite microtasks_add.
  - intros Hnone. exfalso.
    pose proof (has_registry_add eventName listener context
                  (Some (OneOff eventName listener context)) w) as Hhas.
    unfold has_registry in Hhas. rewrite Hnone in Hhas. by destruct Hhas.
Qed.

Lemma invariant_off w eventNames listener context :
  invariant w -> invariant (fst (off eventNames listener context w)).
Proof.
  intros (Hentries & Hjobs & Hreg). unfold off.
  destruct (truthy eventNames); simpl.
  - destruct (forEach_remove_rest (eventNamesList eventNames) listener
                context w) as [Hq _].
    split; [|split].
    + intros n. rewrite listeners_of_forEach_remove.
      case_decide; [by apply good_entry_removed|done].
    + by rewrite Hq.
    + rewrite Hq. intros Hnone. apply Hreg.
      destruct (_eventListeners w) eqn:Hw; [exfalso|done].
      assert (Hhas : has_registry
                       (forEach (eventNamesList eventNames)
                          (fun eventName =>
                             _removeEventListener eventName listener
                               context) w)).
      { apply has_registry_forEach.
        - intros. apply has_registry_remove.
        - right. unfold has_registry. by rewrite Hw. }
      unfold has_registry in Hhas. rewrite Hnone in Hhas.
      by destruct Hhas.
  - split; [|split]; [|done|done].
    intros n. rewrite listeners_of_reset. apply good_entry_nil.
Qed.

Lemma invariant_emit w eventNames eventArgs :
  invariant w -> invariant (fst (emit eventNames eventArgs w)).
Proof.
  intros (Hentries & Hjobs & Hreg). rewrite emit_cases.
  destruct (valid_eventNames eventNames) eqn:Hvalid; [|done].
  simpl.
  destruct (forEach_emitEvent (eventNamesList eventNames) eventArgs w)
    as (Hl & Hq & _).
  split; [|split].
  - intros n. by rewrite Hl.
  - rewrite Hq. apply Forall_app. split; [done|].
    apply Forall_forall. intros j Hj.
    apply list_elem_of_In in Hj.
    unfold scheduled in Hj. apply in_flat_map in Hj as (k & _ & Hj).
    apply in_map_iff in Hj as (el & <- & Hel).
    exists (ToString k). simpl.
    destruct (Hentries (ToString k)) as [Hwf _].
    rewrite Forall_forall in Hwf. apply Hwf. by apply list_elem_of_In.
  - intros Hnone. exfalso.
    assert (Hhas : has_registry
                     (forEach (eventNamesList eventNames)
                        (fun eventName => _emitEvent eventName eventArgs)
                        w)).
    { apply has_registry_forEach.
      - intros. apply has_registry_emitEvent.
      - left. by apply eventNamesList_valid. }
    unfold has_registry in Hhas. rewrite Hnone in Hhas. by destruct Hhas.
Qed.

Lemma invariant_run_next w : invariant w -> invariant (run_next w).
Proof.
  intros (Hentries & Hjobs & Hreg).
  destruct (microtasks w) as [|j q] eqn:Hq.
  { rewrite run_next_nil by done. split; [done|]. by rewrite Hq. }
  rewrite (run_next_cons j q) by done.
  inversion Hjobs as [|? ? Hj Hrest]; subst.
  split; [|split].
  - intros n. rewrite listeners_of_run_job.
    destruct (EventListener.callback _); [apply Hentries|].
    destruct (List.find _ _); [|apply Hentries].
    case_decide; [|apply Hentries].
    apply good_entry_removed, Hentries.
  - by rewrite microtasks_run_job.
  - intros Hnone. exfalso.
    assert (Hhas : has_registry (run_job j (set_microtasks q w))).
    { apply has_registry_run_job. unfold has_registry. simpl.
      destruct (_eventListeners w); [done|]. by specialize (Hreg eq_refl). }
    unfold has_registry in Hhas. rewrite Hnone in Hhas. by destruct Hhas.
Qed.

Lemma invariant_step w a : invariant w -> invariant (step w a).
Proof.
  destruct a; simpl;
    auto using invariant_on, invariant_once, invariant_off, invariant_emit,
      invariant_run_next.
Qed.

Lemma invariant_run actions w : invariant w -> invariant (run actions w).
Proof.
  revert w. induction actions as [|a actions IH]; intros w Hw; [done|].
  simpl. apply IH. by apply invariant_step.
Qed.

Lemma reachable_invariant w : reachable w -> invariant w.
Proof.
  intros [actions ->]. apply invariant_run, invariant_empty.
Qed.

Lemma reachable_run actions w : reachable w -> reachable (run actions w).
Proof.
  intros [before ->]. exists (before ++ actions).
  unfold run. by rewrite fold_left_app.
Qed.

(** A job is queued only once the registry object exists, so the wrapper
    never reads [this._eventListeners] while it is absent. *)
Lemma reachable_queue_needs_registry w :
  reachable w -> microtasks w <> [] -> has_registry w.
Proof.
  intros Hreach Hq. destruct (reachable_invariant w Hreach) as (_ & _ & H).
  unfold has_registry. destruct (_eventListeners w); [done|].
  by specialize (H eq_refl).
Qed.

End Invariant.

(** ** One listener through a history of emissions *)

Section Fate.
Variables (e : string) (f : value).
Hypothesis f_function : is_function f = true.

Implicit Types (w : world) (c : value) (l : list EventListener.t)
  (q : list job).

Lemma f_truthy : truthy f = true.
Proof. unfold is_function in f_function. by destruct f. Qed.

Lemma filter_comm {A} (p r : A -> bool) (xs : list A) :
  List.filter p (List.filter r xs) = List.filter r (List.filter p xs).
Proof.
  induction xs as [|x xs IH]; simpl; [done|].
  destruct (p x) eqn:Hp, (r x) eqn:Hr; simpl; rewrite ?Hp, ?Hr, IH; done.
Qed.

Lemma calls_to_app (log more : list invocation) :
  calls_to f (log ++ more) = calls_to f log ++ calls_to f more.
Proof. apply List.filter_app. Qed.

Lemma registrations_of_none_find c l :
  registrations_of f l = [] ->
  List.find (same_pair f c) l = None.
Proof.
  intros Hnone. apply find_none_Forall, Forall_forall. intros el Hel.
  unfold same_pair.
  destruct (strict_eq (EventListener.listener el) f) eqn:Hf; [|done].
  exfalso. apply list_elem_of_In in Hel.
  assert (Hin : In el (registrations_of f l))
    by (apply filter_In; by split).
  rewrite Hnone in Hin. by destruct Hin.
Qed.

Lemma registrations_of_one_find c cb l :
  registrations_of f l = [EventListener.mk cb f c] ->
  List.find (same_pair f c) l <> None.
Proof.
  intros Hone Hnone.
  rewrite find_none_Forall, Forall_forall in Hnone.
  assert (Hin : In (EventListener.mk cb f c) (registrations_of f l))
    by (rewrite Hone; by left).
  apply filter_In in Hin as [Hin _].
  apply list_elem_of_In, Hnone in Hin.
  unfold same_pair in Hin. simpl in Hin.
  by rewrite !strict_eq_refl in Hin.
Qed.

(** Removing the pair of the only registration of [f] leaves none. *)
Lemma registrations_of_removed_self c cb l :
  registrations_of f l = [EventListener.mk cb f c] ->
  registrations_of f (removed f c l) = [].
Proof.
  intros Hone. unfold removed, registrations_of in *.
  rewrite f_truthy, filter_comm, Hone. simpl.
  rewrite (same_pair_removal_test f c); [done|].
  unfold same_pair. simpl. by rewrite !strict_eq_refl.
Qed.

(** Removing another listener leaves the registrations of [f]. *)
Lemma registrations_of_removed_other other c l :
  typeof other = "function" ->
  strict_eq other f = false ->
  registrations_of f (removed other c l) = registrations_of f l.
Proof.
  intros Hty Hother. unfold removed, registrations_of.
  replace (truthy other) with true by (by destruct other).
  induction l as [|el l IH]; simpl; [done|].
  destruct (removal_test other c el) eqn:Hrm; simpl.
  - apply removal_test_listener in Hrm.
    destruct (strict_eq (EventListener.listener el) f) eqn:Hf; [|done].
    exfalso. rewrite strict_eq_sym in Hrm.
    pose proof (strict_eq_trans _ _ _ Hrm Hf). congruence.
  - by rewrite IH.
Qed.

Lemma jobs_of_app (q q' : list job) :
  jobs_of f (q ++ q') = jobs_of f q ++ jobs_of f q'.
Proof. apply List.filter_app. Qed.

Lemma jobs_of_scheduled eventArgs l :
  jobs_of f (List.map (job_of eventArgs) l)
  = List.map (job_of eventArgs) (registrations_of f l).
Proof.
  induction l as [|el l IH]; simpl; [done|].
  destruct (strict_eq (EventListener.listener el) f); simpl;
    by rewrite IH.
Qed.

(** A job of another listener neither calls [f] nor touches its
    registrations. *)
Lemma run_job_other j w :
  (exists n, well_formed n (job_listener j)) ->
  strict_eq (EventListener.listener (job_listener j)) f = false ->
  calls_to f (calls (run_job j w)) = calls_to f (calls w)
  /\ forall n,
      registrations_of f (listeners_of (run_job j w) n)
      = registrations_of f (listeners_of w n).
Proof.
  intros [m [Hty Hcb]] Hother.
  rewrite calls_run_job, calls_to_app.
  split.
  - destruct (EventListener.callback _) as [fn|k l c].
    + subst fn. unfold calls_to at 2. simpl. rewrite Hother.
      by rewrite app_nil_r.
    + destruct Hcb as (_ & -> & _).
      destruct (List.find _ _); [|by rewrite app_nil_r].
      unfold calls_to at 2. simpl. rewrite Hother. by rewrite app_nil_r.
  - intros n. rewrite listeners_of_run_job.
    destruct (EventListener.callback _) as [fn|k l c]; [done|].
    destruct Hcb as (_ & -> & _).
    destruct (List.find _ _); [|done].
    case_decide; [|done].
    by apply registrations_of_removed_other.
Qed.

(** What [emit(e, ...args)] does, seen from outside. *)
Lemma emit_one_name eventArgs w :
  (forall n,
      listeners_of (fst (emit (VStr e) eventArgs w)) n = listeners_of w n)
  /\ microtasks (fst (emit (VStr e) eventArgs w))
     = microtasks w ++ List.map (job_of eventArgs) (listeners_of w e)
  /\ calls (fst (emit (VStr e) eventArgs w)) = calls w.
Proof.
  rewrite emit_cases. simpl. unfold forEach. simpl.
  split; [|split].
  - intros n. apply listeners_of_emitEvent.
  - apply microtasks_emitEvent.
  - apply calls_emitEvent.
Qed.

Lemma emits_only_repeat k : emits_only e (List.repeat Run_next k).
Proof. induction k; by constructor. Qed.

Lemma emitted_repeat k : emitted (List.repeat Run_next k) = [].
Proof. by induction k. Qed.

Lemma emitted_app (xs ys : list action) :
  emitted (xs ++ ys) = emitted xs ++ emitted ys.
Proof. unfold emitted. by rewrite !flat_map_concat_map, map_app, concat_app. Qed.

End Fate.

(** ** on after once *)

Section OnAfterOnce.
Variables (e : string) (f c : value).
Hypothesis f_function : is_function f = true.

Lemma on_standing_emit base sofar eventArgs w :
  on_standing e f c base sofar w ->
  on_standing e f c base (sofar ++ [eventArgs])
    (fst (emit (VStr e) eventArgs w)).
Proof.
  intros (Hreg & Hjobs & Hcalls).
  destruct (emit_one_name e eventArgs w) as (Hl & Hq & Hc).
  unfold on_standing.
  rewrite Hl, Hq, Hc, jobs_of_app, jobs_of_scheduled, Hreg. simpl.
  split; [done|]. split.
  - apply Forall_app. split; [done|by repeat constructor].
  - by rewrite !map_app, !app_assoc, Hcalls.
Qed.

Lemma on_standing_run_next base sofar w :
  invariant w ->
  on_standing e f c base sofar w ->
  on_standing e f c base sofar (run_next w).
Proof.
  intros (_ & Hwf & _) Hp.
  destruct (microtasks w) as [|j q] eqn:Hq;
    [by rewrite run_next_nil|].
  rewrite (run_next_cons j q) by done.
  destruct Hp as (Hreg & Hjobs & Hcalls). rewrite Hq in Hjobs, Hcalls.
  inversion Hwf as [|? ? Hj Hq_wf]; subst.
  unfold on_standing. rewrite microtasks_run_job.
  change (microtasks (set_microtasks q w)) with q.
  unfold jobs_of in Hjobs, Hcalls. simpl in Hjobs, Hcalls.
  fold (jobs_of f q) in Hjobs, Hcalls.
  destruct (strict_eq (EventListener.listener (job_listener j)) f) eqn:Hf.
  - inversion Hjobs as [|? ? Hreg_j Hrest]; subst.
    rewrite listeners_of_run_job, calls_run_job, Hreg_j. simpl.
    split; [done|]. split; [done|].
    rewrite calls_to_app, <- app_assoc, <- Hcalls. f_equal.
    unfold calls_to. simpl. by rewrite strict_eq_refl.
  - destruct (run_job_other f j (set_microtasks q w) Hj Hf) as [Hc Hr].
    by rewrite Hc, Hr.
Qed.

Lemma on_standing_run actions base sofar w :
  invariant w ->
  emits_only e actions ->
  on_standing e f c base sofar w ->
  on_standing e f c base (sofar ++ emitted actions) (run actions w).
Proof.
  intros Hinv Hactions. revert sofar w Hinv.
  induction Hactions as [|a actions Ha Hrest IH]; intros sofar w Hinv Hp.
  - simpl. by rewrite app_nil_r.
  - simpl.
    change (emitted (a :: actions)) with (emitted [a] ++ emitted actions).
    rewrite app_assoc.
    apply IH; [by apply invariant_step|].
    destruct a as [| | |eventNames eventArgs|]; try done.
    + subst eventNames. simpl. by apply on_standing_emit.
    + simpl. rewrite app_nil_r. by apply on_standing_run_next.
Qed.

(** Removing the pair ([f], [c]) takes away every registration of [f]
    when [f] is registered with no other context. *)
Lemma registrations_of_removed_all (l : list EventListener.t) :
  (forall el,
      el ∈ l ->
      strict_eq (EventListener.listener el) f = true ->
      strict_eq (EventListener.context el) c = true) ->
  registrations_of f (removed f c l) = [].
Proof.
  intros Hctx. unfold removed, registrations_of.
  rewrite (f_truthy f f_function).
  induction l as [|el l IH]; simpl; [done|].
  assert (Hrest : List.filter
                    (fun el0 => strict_eq (EventListener.listener el0) f)
                    (List.filter
                       (fun el0 => negb (removal_test f c el0)) l) = []).
  { apply IH. intros el' Hel'. apply Hctx. by apply list_elem_of_further. }
  destruct (removal_test f c el) eqn:Hrm; simpl; [done|].
  destruct (strict_eq (EventListener.listener el) f) eqn:Hf; [|done].
  exfalso.
  pose proof (Hctx el (list_elem_of_here _ _) Hf) as Hc.
  rewrite (same_pair_removal_test f c el) in Hrm; [done|].
  unfold same_pair. by rewrite Hf, Hc.
Qed.



End OnAfterOnce.



(** ** once: at most one call *)

Section Once.
Variables (e : string) (f c : value).
Hypothesis f_function : is_function f = true.

Lemma once_pending_emit base sofar eventArgs w :
  once_pending e f c base sofar w ->
  once_pending e f c base (sofar ++ [eventArgs])
    (fst (emit (VStr e) eventArgs w)).
Proof.
  intros [Hjobs Hstate].
  destruct (emit_one_name e eventArgs w) as (Hl & Hq & Hc).
  unfold once_pending. rewrite Hl, Hq, Hc, jobs_of_app, jobs_of_scheduled.
  destruct Hstate as [(Hreg & Hcalls & Hargs) | (Hreg & a & rest & -> & Hcalls)];
    rewrite Hreg; simpl.
  - split; [apply Forall_app; split; [done|by repeat constructor]|].
    left. split; [done|]. split; [done|].
    by rewrite map_app, Hargs.
  - rewrite app_nil_r. split; [done|].
    right. split; [done|]. by exists a, (rest ++ [eventArgs]).
Qed.

Lemma once_pending_run_next base sofar w :
  invariant w ->
  once_pending e f c base sofar w ->
  once_pending e f c base sofar (run_next w).
Proof.
  intros (_ & Hwf & _) Hp.
  destruct (microtasks w) as [|j q] eqn:Hq;
    [by rewrite run_next_nil|].
  rewrite (run_next_cons j q) by done.
  destruct Hp as [Hjobs Hstate]. rewrite Hq in Hjobs, Hstate.
  inversion Hwf as [|? ? Hj Hq_wf]; subst.
  unfold once_pending. rewrite microtasks_run_job.
  change (microtasks (set_microtasks q w)) with q.
  unfold jobs_of in Hjobs, Hstate. simpl in Hjobs, Hstate.
  fold (jobs_of f q) in Hjobs, Hstate.
  destruct (strict_eq (EventListener.listener (job_listener j)) f) eqn:Hf.
  - (* a job of the wrapper *)
    inversion Hjobs as [|? ? Hreg_j Hrest]; subst.
    split; [done|].
    rewrite listeners_of_run_job, calls_run_job, Hreg_j. simpl.
    rewrite !listeners_of_set_microtasks.
    destruct Hstate as [(Hreg & Hcalls & Hargs) | (Hreg & a & rest & -> & Hcalls)].
    + destruct (List.find (same_pair f c) (listeners_of w e)) eqn:Hfind;
        [|by apply registrations_of_one_find in Hreg].
      rewrite decide_True by done.
      right. split; [by eapply registrations_of_removed_self|].
      simpl in Hargs. exists (job_eventArgs j), (List.map job_eventArgs (jobs_of f q)).
      split; [done|].
      rewrite calls_to_app, Hcalls. f_equal.
      unfold calls_to. simpl. by rewrite strict_eq_refl.
    + rewrite (registrations_of_none_find f c _ Hreg).
      right. split; [done|]. exists a, rest. by rewrite app_nil_r.
  - (* a job of another listener *)
    destruct (run_job_other f j (set_microtasks q w) Hj Hf) as [Hc Hr].
    split; [done|]. rewrite Hc, Hr.
    destruct Hstate as [(Hreg & Hcalls & Hargs) | (Hreg & a & rest & -> & Hcalls)].
    + left. by repeat split.
    + right. split; [done|]. by exists a, rest.
Qed.

Lemma once_pending_run actions base sofar w :
  invariant w ->
  emits_only e actions ->
  once_pending e f c base sofar w ->
  once_pending e f c base (sofar ++ emitted actions) (run actions w).
Proof.
  intros Hinv Hactions. revert sofar w Hinv.
  induction Hactions as [|a actions Ha Hrest IH]; intros sofar w Hinv Hp.
  - simpl. by rewrite app_nil_r.
  - simpl. change (emitted (a :: actions)) with (emitted [a] ++ emitted actions).
    rewrite app_assoc.
    apply IH; [by apply invariant_step|].
    destruct a as [| | |eventNames eventArgs|]; try done.
    + subst eventNames. simpl. by apply once_pending_emit.
    + simpl. rewrite app_nil_r. by apply once_pending_run_next.
Qed.

Lemma once_pending_start w :
  microtasks w = [] ->
  registrations_of f (listeners_of w e) = [] ->
  once_pending e f c (calls_to f (calls w)) []
    (fst (once (VStr e) f c w)).
Proof.
  intros Hq Hreg. rewrite once_cases, f_function. simpl.
  unfold once_pending.
  rewrite microtasks_add, calls_add, listeners_of_add, Hq.
  rewrite decide_True by done. simpl.
  split; [constructor|]. left. split; [|done].
  unfold added. rewrite (registrations_of_none_find f c _ Hreg).
  unfold registrations_of in *. rewrite List.filter_app, Hreg. simpl.
  by rewrite strict_eq_refl.
Qed.

End Once.



(** ** Event names: strings and arrays of strings *)




(** ** on: what it removes *)

(** With a context that is not [undefined], [on] replaces the registration
    of this very listener and context and keeps every other one. *)
Lemma on_defined_context_keeps_others
    (w : world) (e : string) (listener context : value) :
  is_function listener = true -> context <> VUndefined ->
  listeners_of (fst (on (VStr e) listener context w)) e
  = List.filter (fun el => negb (same_pair listener context el))
      (listeners_of w e)
    ++ [ EventListener.mk (Direct listener) listener context ].
Proof.
  intros Hfn Hdef.
  destruct (on_valid w (VStr e) listener context eq_refl Hfn) as (_ & -> & _).
  rewrite decide_True by apply list_elem_of_here.
  assert (Hfn' : typeof listener = "function").
  { unfold is_function in Hfn. by destruct listener. }
  unfold added. rewrite find_same_pair_removed by done.
  rewrite removed_exact; [done| by destruct listener |done].
Qed.

(** With the context left out, [on] removes every registration of the
    listener under the name, whatever context it was registered with: the
    one it then adds is the only one left. *)
Lemma on_without_context_leaves_one
    (w : world) (e : string) (listener : value) :
  is_function listener = true ->
  registrations_of listener
    (listeners_of (fst (on (VStr e) listener VUndefined w)) e)
  = [ on_registration listener VUndefined ].
Proof.
  intros Hfn.
  destruct (on_valid w (VStr e) listener VUndefined eq_refl Hfn)
    as (_ & -> & _).
  rewrite decide_True by apply list_elem_of_here.
  assert (Hty : typeof listener = "function").
  { unfold is_function in Hfn. by apply String.eqb_eq. }
  unfold added. rewrite find_same_pair_removed by done.
  unfold registrations_of. rewrite List.filter_app. simpl.
  rewrite strict_eq_refl.
  rewrite removed_any_context by (by destruct listener).
  replace (List.filter _ (List.filter _ (listeners_of w e))) with
    (@nil EventListener.t); [done|].
  induction (listeners_of w e) as [|el l IH]; simpl; [done|].
  destruct (strict_eq (EventListener.listener el) listener) eqn:Hl; simpl;
    [done|]. by rewrite Hl.
Qed.

(** C4, at the failing input: [on("e", f, c1)] followed by [on("e", f)]
    with the context left out. The second call removes the registration of
    [f] with the context [c1], which has another context than the call, and
    leaves [f] registered with [undefined] only. *)
Lemma on_without_context_removes_other_contexts :
  let f := VFun 1 "function () {}" in
  let c1 := VObj 1 in
  let w1 := fst (on (VStr "e") f c1 empty_world) in
  let w2 := fst (on (VStr "e") f VUndefined w1) in
  strict_eq c1 VUndefined = false
  /\ listeners_of w1 "e" = [ EventListener.mk (Direct f) f c1 ]
  /\ listeners_of w2 "e" = [ EventListener.mk (Direct f) f VUndefined ]
  /\ _findEventListener (VStr "e") f c1 w2 = None.
Proof. vm_compute. repeat split. Qed.

(** ** off *)



(** ** once: validation *)




(** ** No pair twice *)






(** ** emit *)



(** ** Validation *)

(** C9. [on] and [emit] throw exactly when [eventNames] is neither a string
    nor a non-empty array of strings or (for [on]) the listener is not a
    function; [once] throws exactly when [eventName] is not a string or the
    listener is not a function. Whenever one of the three throws, the world
    it leaves is the world it was called in: same registry, same queue,
    same log. *)
Theorem validation_error_changes_nothing
    (w : world) (eventNames listener context : value)
    (eventArgs : list value) :
  (valid_eventNames eventNames && is_function listener = false ->
   exists e, on eventNames listener context w = (w, Throw e))
  /\ (is_string eventNames && is_function listener = false ->
      exists e, once eventNames listener context w = (w, Throw e))
  /\ (valid_eventNames eventNames = false ->
      exists e, emit eventNames eventArgs w = (w, Throw e))
  /\ (forall w' e,
        on eventNames listener context w = (w', Throw e) ->
        w' = w /\ valid_eventNames eventNames && is_function listener = false)
  /\ (forall w' e,
        once eventNames listener context w = (w', Throw e) ->
        w' = w /\ is_string eventNames && is_function listener = false)
  /\ (forall w' e,
        emit eventNames eventArgs w = (w', Throw e) ->
        w' = w /\ valid_eventNames eventNames = false).
Proof.
  rewrite on_cases, once_cases, emit_cases.
  destruct (valid_eventNames eventNames), (is_string eventNames),
    (is_function listener); simpl; repeat split; intros;
    try discriminate; eauto; congruence.
Qed.

Lemma validation_error_changes_nothing_witness :
  let f := VFun 1 "function () {}" in
  let w := fst (on (VStr "ready") f VUndefined empty_world) in
  (exists e, on (VArr 0 []) f VUndefined w = (w, Throw e))
  /\ (exists e, once (VArr 0 [VStr "ready"]) f VUndefined w = (w, Throw e))
  /\ (exists e, emit VNull [] w = (w, Throw e)).
Proof.
  intros f w.
  split; [|split].
  - apply (validation_error_changes_nothing w (VArr 0 []) f VUndefined []).
    reflexivity.
  - apply (validation_error_changes_nothing w (VArr 0 [VStr "ready"]) f
             VUndefined []).
    reflexivity.
  - apply (validation_error_changes_nothing w VNull f VUndefined []).
    reflexivity.
Defined.

(** ** off without a listener *)

(** C10. When [listener] is falsy, [off(e, listener, context)] returns
    [this] and leaves no registration under [e], whatever [context] is: the
    call does what the same call without a context does. With a function as
    listener and a context that is not [undefined], the registrations under
    [e] with another listener or another context stay. *)
Theorem off_falsy_listener_ignores_context
    (w : world) (e : string) (listener context : value) :
  truthy listener = false ->
  (exists w',
      off (VStr e) listener context w = (w', ReturnThis)
      /\ listeners_of w' e = [])
  /\ off (VStr e) listener context w = off (VStr e) listener VUndefined w
  /\ (forall fn,
        is_function fn = true -> context <> VUndefined ->
        listeners_of (fst (off (VStr e) fn context w)) e
        = if truthy (VStr e)
          then List.filter (fun el => negb (same_pair fn context el))
                 (listeners_of w e)
          else []).
Proof.
  intros Hfalsy. split; [|split].
  - destruct (truthy (VStr e)) eqn:He.
    + rewrite off_named by done. eexists. split; [reflexivity|].
      rewrite listeners_of_forEach_remove.
      rewrite decide_True by apply list_elem_of_here.
      unfold removed. by rewrite Hfalsy.
    + rewrite off_reset by done. eexists. split; [reflexivity|].
      apply listeners_of_reset.
  - unfold off, forEach, _removeEventListener. simpl.
    by rewrite Hfalsy.
  - intros fn Hfn Hdef.
    destruct (truthy (VStr e)) eqn:He.
    + rewrite off_named by done.
      change (fst (?a, ReturnThis)) with a.
      rewrite listeners_of_forEach_remove.
      rewrite decide_True by apply list_elem_of_here.
      apply removed_exact; [|done].
      unfold is_function in Hfn. by destruct fn.
    + rewrite off_reset by done. apply listeners_of_reset.
Qed.

Lemma off_falsy_listener_ignores_context_witness :
  let f := VFun 1 "function () {}" in
  let w := fst (on (VStr "e") f (VObj 2)
                  (fst (on (VStr "e") f (VObj 1) empty_world))) in
  exists w',
    off (VStr "e") VNull (VObj 1) w = (w', ReturnThis)
    /\ listeners_of w' "e" = [].
Proof.
  intros f w.
  apply (off_falsy_listener_ignores_context w "e" VNull (VObj 1) eq_refl).
Defined.

(** * Further properties of the code *)

(** ** The helpers of lib/ *)




Lemma find_loop_drop {A} (l : list A) (testFn : A -> value) i :
  Lib.find_loop l testFn i (length l - i)
  = List.find (fun item => truthy (testFn item)) (drop i l).
Proof.
  remember (length l - i) as steps eqn:Hsteps.
  revert i Hsteps. induction steps as [|steps IH]; intros i Hsteps; simpl.
  - rewrite drop_ge by lia. done.
  - destruct (l !! i) as [item|] eqn:Hi.
    + rewrite (drop_S l item i Hi). simpl.
      destruct (truthy (testFn item)); [done|]. apply IH. lia.
    + apply lookup_ge_None in Hi. lia.
Qed.

Lemma Lib_find_array {A} (l : list A) (testFn : A -> value) :
  Lib.find (Some l) (Some testFn)
  = List.find (fun item => truthy (testFn item)) l.
Proof.
  unfold Lib.find. rewrite <- (Nat.sub_0_r (length l)) at 1.
  by rewrite find_loop_drop.
Qed.

(** The calls of the mixin are calls of the exported helpers. *)
Lemma find_Lib_find {A} (arr : option (list A)) (testFn : A -> bool) :
  find arr testFn = Lib.find arr (Some (fun item => VBool (testFn item))).
Proof.
  destruct arr as [l|]; [|done]. by rewrite Lib_find_array.
Qed.

Lemma reject_Lib_reject {A} (arr : option (list A)) (testFn : A -> bool) :
  reject arr testFn
  = Lib.reject arr (Some (fun item => VBool (testFn item))).
Proof. by destruct arr. Qed.


(** X3. [reject] gives the empty array when [arr] is not an array or
    [testFn] is not a function. On an array it gives the elements on which
    [testFn] returns a falsy value, in the order of the array: an element
    is in the result exactly when it is in the array with a falsy test, and
    the result is a sublist of the array. *)
Theorem Lib_reject_spec {A : Type}
    (arr : option (list A)) (testFn : option (A -> value)) :
  (arr = None \/ testFn = None -> Lib.reject arr testFn = [])
  /\ (forall l fn,
        arr = Some l -> testFn = Some fn ->
        (forall x,
            x ∈ Lib.reject arr testFn <-> x ∈ l /\ truthy (fn x) = false)
        /\ sublist (Lib.reject arr testFn) l
        /\ length (Lib.reject arr testFn) <= length l).
Proof.
  split.
  - intros [->| ->]; [done|by destruct arr].
  - intros l fn -> ->. simpl. split; [|split].
    + intros x. rewrite !list_elem_of_In, filter_In, negb_true_iff. done.
    + induction l as [|y l IH]; simpl; [constructor|].
      destruct (truthy (fn y)); simpl; by constructor.
    + apply List.filter_length_le.
Qed.

(** X4. What [reject] leaves has no element for [find] with the same test,
    and a second [reject] with the same test changes nothing. *)
Theorem Lib_find_after_reject {A : Type}
    (arr : option (list A)) (testFn : option (A -> value)) :
  Lib.find (Some (Lib.reject arr testFn)) testFn = None
  /\ Lib.reject (Some (Lib.reject arr testFn)) testFn
     = Lib.reject arr testFn.
Proof.
  destruct testFn as [fn|]; [|by destruct arr].
  destruct arr as [l|]; [|done].
  rewrite Lib_find_array. simpl. split.
  - apply find_none_Forall, Forall_forall. intros x Hx.
    apply list_elem_of_In, filter_In in Hx as [_ Hx].
    by apply negb_true_iff.
  - apply filter_filter_same.
Qed.

Lemma Lib_reject_spec_witness :
  let odd := fun n : Z => VBool (Z.odd n) in
  3%Z ∈ Lib.reject (Some [1%Z; 2%Z; 3%Z; 4%Z]) (Some (fun n => VBool (Z.even n)))
  /\ Lib.reject (@None (list Z)) (Some odd) = [].
Proof.
  intros odd. split.
  - destruct (Lib_reject_spec (Some [1%Z; 2%Z; 3%Z; 4%Z])
                (Some (fun n => VBool (Z.even n)))) as [_ Hspec].
    destruct (Hspec _ _ eq_refl eq_refl) as (Hin & _).
    apply Hin. split; [|reflexivity].
    apply list_elem_of_In. simpl. tauto.
  - apply (Lib_reject_spec (@None (list Z)) (Some odd)). by left.
Defined.

(** ** Registering *)

Lemma off_rest w eventNames listener context :
  microtasks (fst (off eventNames listener context w)) = microtasks w
  /\ calls (fst (off eventNames listener context w)) = calls w.
Proof.
  unfold off. destruct (truthy eventNames); simpl; [|done].
  apply forEach_remove_rest.
Qed.

Lemma on_rest w eventNames listener context :
  microtasks (fst (on eventNames listener context w)) = microtasks w
  /\ calls (fst (on eventNames listener context w)) = calls w.
Proof.
  destruct (valid_eventNames eventNames) eqn:Hvalid;
    [|by rewrite on_cases, Hvalid].
  destruct (is_function listener) eqn:Hfn;
    [|by rewrite on_cases, Hvalid, Hfn].
  by destruct (on_valid w eventNames listener context Hvalid Hfn)
    as (_ & _ & -> & ->).
Qed.

Lemma once_rest w eventName listener context :
  microtasks (fst (once eventName listener context w)) = microtasks w
  /\ calls (fst (once eventName listener context w)) = calls w.
Proof.
  rewrite once_cases.
  destruct (is_string eventName); [|done].
  destruct (is_function listener); [|done].
  simpl. by rewrite microtasks_add, calls_add.
Qed.



(** X6. With a context that is not [undefined], a valid [on(e, f, c)]
    takes away the registrations of this very listener with this very
    context only: every other registration under [e], of another listener
    or of [f] with another context, stays, in the order it was in, before
    the new one. *)
Theorem on_with_context_keeps_other_registrations
    (w : world) (e : string) (listener context : value) :
  is_function listener = true ->
  context <> VUndefined ->
  listeners_of (fst (on (VStr e) listener context w)) e
  = List.filter (fun el => negb (same_pair listener context el))
      (listeners_of w e)
    ++ [on_registration listener context]
  /\ (forall el,
        el ∈ listeners_of w e ->
        strict_eq (EventListener.listener el) listener
        && strict_eq (EventListener.context el) context = false ->
        el ∈ listeners_of (fst (on (VStr e) listener context w)) e).
Proof.
  intros Hfn Hdef.
  pose proof (on_defined_context_keeps_others w e listener context Hfn Hdef)
    as Hentry.
  split; [done|].
  intros el Hel Hother. rewrite Hentry. apply elem_of_app. left.
  apply list_elem_of_In, filter_In. split; [by apply list_elem_of_In|].
  unfold same_pair. by rewrite Hother.
Qed.

Lemma on_with_context_keeps_other_registrations_witness :
  let f := VFun 1 "function () {}" in
  let w := fst (on (VStr "e") f (VObj 2)
                  (fst (on (VStr "e") f (VObj 1) empty_world))) in
  listeners_of (fst (on (VStr "e") f (VObj 1) w)) "e"
  = [ on_registration f (VObj 2); on_registration f (VObj 1) ].
Proof.
  intros f w.
  apply (on_with_context_keeps_other_registrations w "e" f (VObj 1) eq_refl).
  discriminate.
Defined.

(** X7. [once] on a pair that is registered already under the name, by [on]
    or by [once], changes no entry, queues nothing and calls nothing: the
    registration that was there stays as it is. *)
Theorem once_on_registered_pair_changes_nothing
    (w : world) (e : string) (listener context : value)
    (el : EventListener.t) :
  List.find (same_pair listener context) (listeners_of w e) = Some el ->
  snd (once (VStr e) listener context w)
  = (if is_function listener then ReturnThis
     else Throw (ListenerError (typeof listener)))
  /\ (forall n,
        listeners_of (fst (once (VStr e) listener context w)) n
        = listeners_of w n)
  /\ microtasks (fst (once (VStr e) listener context w)) = microtasks w
  /\ calls (fst (once (VStr e) listener context w)) = calls w.
Proof.
  intros Hfound.
  destruct (once_rest w (VStr e) listener context) as [Hq Hc].
  split; [|split; [|done]].
  - rewrite once_cases. simpl. by destruct (is_function listener).
  - intros n. rewrite once_cases. simpl.
    destruct (is_function listener); [|done]. simpl.
    rewrite listeners_of_add. simpl.
    case_decide as Hn; [|done]. subst n.
    unfold added. by rewrite Hfound.
Qed.

Lemma once_on_registered_pair_changes_nothing_witness :
  let f := VFun 1 "function () {}" in
  let w := fst (on (VStr "event1") f VUndefined empty_world) in
  listeners_of (fst (once (VStr "event1") f VUndefined w)) "event1"
  = [ on_registration f VUndefined ].
Proof.
  intros f w.
  destruct (once_on_registered_pair_changes_nothing w "event1" f VUndefined
              (on_registration f VUndefined) eq_refl) as (_ & Hl & _).
  exact (Hl "event1").
Defined.

(** X15. Registering and removing never queue a job and never call a
    listener: whatever their arguments, valid or not, [on], [once] and [off]
    leave the queue and the log as they were. *)
Theorem registering_queues_and_calls_nothing
    (w : world) (eventNames listener context : value) :
  (microtasks (fst (on eventNames listener context w)) = microtasks w
   /\ calls (fst (on eventNames listener context w)) = calls w)
  /\ (microtasks (fst (once eventNames listener context w)) = microtasks w
      /\ calls (fst (once eventNames listener context w)) = calls w)
  /\ (microtasks (fst (off eventNames listener context w)) = microtasks w
      /\ calls (fst (off eventNames listener context w)) = calls w).
Proof.
  split; [apply on_rest|]. split; [apply once_rest|apply off_rest].
Qed.

(** ** Emitting *)


Lemma off_falsy_entry w e listener context :
  truthy listener = false ->
  listeners_of (fst (off (VStr e) listener context w)) e = [].
Proof.
  intros Hfalsy. destruct (truthy (VStr e)) eqn:He.
  - rewrite off_named by done. change (fst (?a, ReturnThis)) with a.
    rewrite listeners_of_forEach_remove.
    rewrite decide_True by apply list_elem_of_here.
    unfold removed. by rewrite Hfalsy.
  - rewrite off_reset by done. apply listeners_of_reset.
Qed.



(** X14. After [off(e)], and after [off(e, listener, context)] with any
    falsy listener, an emission of [e] queues no job and calls nothing,
    whatever was registered under [e] before. *)
Theorem off_then_emit_schedules_nothing
    (w : world) (e : string) (listener context : value)
    (eventArgs : list value) :
  truthy listener = false ->
  microtasks
    (fst (emit (VStr e) eventArgs (fst (off (VStr e) listener context w))))
  = microtasks w
  /\ calls
       (fst (emit (VStr e) eventArgs (fst (off (VStr e) listener context w))))
     = calls w.
Proof.
  intros Hfalsy.
  destruct (emit_one_name e eventArgs (fst (off (VStr e) listener context w)))
    as (_ & -> & ->).
  rewrite off_falsy_entry by done.
  destruct (off_rest w (VStr e) listener context) as [-> ->].
  by rewrite app_nil_r.
Qed.

Lemma off_then_emit_schedules_nothing_witness :
  let f := VFun 1 "function () {}" in
  let w := fst (on (VStr "started") f VUndefined empty_world) in
  microtasks
    (fst (emit (VStr "started") []
            (fst (off (VStr "started") VUndefined VUndefined w))))
  = [].
Proof.
  intros f w.
  apply (off_then_emit_schedules_nothing w "started" VUndefined VUndefined []
           eq_refl).
Defined.

Lemma run_job_persistent j w :
  persistent (job_listener j) ->
  run_job j w
  = apply_listener (EventListener.listener (job_listener j))
      (EventListener.context (job_listener j)) (job_eventArgs j) w.
Proof. unfold run_job, persistent. by intros ->. Qed.




Lemma fold_run_keeps_calls (q : list job) (w0 : world) (i : invocation) :
  i ∈ calls w0 -> i ∈ calls (fold_left (fun acc j => run_job j acc) q w0).
Proof.
  revert w0. induction q as [|j q IH]; intros w0 Hi; [done|].
  simpl. apply IH. rewrite calls_run_job. apply elem_of_app. by left.
Qed.

Lemma fold_run_calls_persistent (q : list job) (w0 : world) (j : job) :
  j ∈ q -> persistent (job_listener j) ->
  job_call j ∈ calls (fold_left (fun acc j => run_job j acc) q w0).
Proof.
  revert w0. induction q as [|j' q IH]; intros w0 Hj Hp.
  - by apply elem_of_nil in Hj.
  - simpl. apply elem_of_cons in Hj as [<-|Hj]; [|by apply IH].
    apply fold_run_keeps_calls. rewrite run_job_persistent by done.
    simpl. apply elem_of_app. right. apply list_elem_of_here.
Qed.

(** X11. A call that is queued for a registration made by [on] is made,
    whatever [off] does before the queue runs: after [emit(e, ...args)], any
    call of [off] and a turn of the queue, the log holds the call of the
    listener with its context and the arguments of the emission. *)
Theorem queued_persistent_call_survives_off
    (w : world) (e : string) (el : EventListener.t)
    (eventArgs : list value) (eventNames listener context : value) :
  el ∈ listeners_of w e ->
  persistent el ->
  invoke (EventListener.listener el) (EventListener.context el) eventArgs
  ∈ calls
      (drain
         (fst (off eventNames listener context
                 (fst (emit (VStr e) eventArgs w))))).
Proof.
  intros Hel Hp.
  destruct (emit_one_name e eventArgs w) as (_ & Hq & _).
  destruct (off_rest (fst (emit (VStr e) eventArgs w)) eventNames listener
              context) as [Hq' _].
  unfold drain. rewrite Hq', Hq.
  apply (fold_run_calls_persistent _ _ (job_of eventArgs el)); [|done].
  apply elem_of_app. right. apply list_elem_of_In, in_map.
  by apply list_elem_of_In.
Qed.

Lemma queued_persistent_call_survives_off_witness :
  let f := VFun 1 "function () {}" in
  let w := fst (on (VStr "event1") f VUndefined empty_world) in
  let w' := fst (off VUndefined VUndefined VUndefined
                   (fst (emit (VStr "event1") [VNum 1] w))) in
  listeners_of w' "event1" = []
  /\ invoke f VUndefined [VNum 1] ∈ calls (drain w').
Proof.
  intros f w w'. split; [reflexivity|].
  apply (queued_persistent_call_survives_off w "event1"
           (on_registration f VUndefined) [VNum 1]);
    [apply list_elem_of_here | reflexivity].
Defined.

(** ** Listeners through histories *)

Lemma on_standing_after_on w e f c :
  is_function f = true ->
  microtasks w = [] ->
  (forall el,
      el ∈ listeners_of w e ->
      strict_eq (EventListener.listener el) f = true ->
      strict_eq (EventListener.context el) c = true) ->
  on_standing e f c (calls_to f (calls w)) [] (fst (on (VStr e) f c w)).
Proof.
  intros Hfn Hq Hctx.
  destruct (on_valid w (VStr e) f c eq_refl Hfn) as (_ & Hl & Hq' & Hc').
  unfold on_standing. rewrite Hl, Hq', Hc', Hq.
  rewrite decide_True by apply list_elem_of_here. simpl.
  split; [|split; [constructor|by rewrite !app_nil_r]].
  assert (Hty : typeof f = "function").
  { unfold is_function in Hfn. by apply String.eqb_eq. }
  unfold added. rewrite find_same_pair_removed by done.
  unfold registrations_of at 1. rewrite List.filter_app.
  fold (registrations_of f (removed f c (listeners_of w e))).
  rewrite registrations_of_removed_all by done.
  simpl. by rewrite strict_eq_refl.
Qed.


Lemma on_standing_finish w e f c base actions :
  is_function f = true ->
  invariant w ->
  on_standing e f c base [] w ->
  emits_only e actions ->
  registrations_of f (listeners_of (run actions w) e) = [on_registration f c]
  /\ calls_to f (calls (drain (run actions w)))
     = base ++ List.map (invoke f c) (emitted actions).
Proof.
  intros Hfn Hinv Hstart Hactions.
  pose proof (on_standing_run e f c actions _ [] _ Hinv Hactions Hstart)
    as Hrun.
  simpl in Hrun.
  pose proof (on_standing_run e f c
                (List.repeat Run_next (length (microtasks (run actions w))))
                _ _ _ (invariant_run actions _ Hinv)
                (emits_only_repeat e _) Hrun) as Hdrained.
  rewrite <- drain_run_next, emitted_repeat, app_nil_r in Hdrained.
  destruct Hrun as (Hreg & _). destruct Hdrained as (_ & _ & Hcalls).
  rewrite microtasks_drain in Hcalls. simpl in Hcalls.
  rewrite app_nil_r in Hcalls. done.
Qed.

(** X9. Let no job be queued and let the function [f] be registered under
    [e] with no other context than [c]. After [on(e, f, c)], whatever the
    emissions of [e] that follow and however the runs of queued jobs fall
    between them, the registration stays the one registration of [f] under
    [e], and once the queue has been run [f] has been called once for each
    emission, with the receiver [c] and the arguments of that emission, in
    the order of the emissions. *)
Theorem on_listener_called_on_every_emission
    (w : world) (e : string) (f c : value) (actions : list action) :
  reachable w ->
  is_function f = true ->
  microtasks w = [] ->
  (forall el,
      el ∈ listeners_of w e ->
      strict_eq (EventListener.listener el) f = true ->
      strict_eq (EventListener.context el) c = true) ->
  emits_only e actions ->
  registrations_of f
    (listeners_of (run actions (fst (on (VStr e) f c w))) e)
  = [on_registration f c]
  /\ calls_to f (calls (drain (run actions (fst (on (VStr e) f c w)))))
     = calls_to f (calls w) ++ List.map (invoke f c) (emitted actions).
Proof.
  intros Hreach Hfn Hq Hctx Hactions.
  apply on_standing_finish; try done.
  - by apply invariant_on, reachable_invariant.
  - by apply on_standing_after_on.
Qed.

Lemma on_listener_called_on_every_emission_witness :
  let f := VFun 1 "function () {}" in
  let w := fst (on (VStr "event1") f (VObj 1) empty_world) in
  calls_to f
    (calls (drain (run [ Call_emit (VStr "event1") [VNum 1];
                         Run_next;
                         Call_emit (VStr "event1") [VNum 2] ] w)))
  = [ invoke f (VObj 1) [VNum 1]; invoke f (VObj 1) [VNum 2] ].
Proof.
  intros f w.
  assert (Hreach : reachable empty_world) by (by exists []).
  assert (Hemits : emits_only "event1"
                     [ Call_emit (VStr "event1") [VNum 1];
                       Run_next;
                       Call_emit (VStr "event1") [VNum 2] ])
    by (by repeat constructor).
  destruct (on_listener_called_on_every_emission empty_world "event1" f
              (VObj 1)
              [ Call_emit (VStr "event1") [VNum 1];
                Run_next;
                Call_emit (VStr "event1") [VNum 2] ]
              Hreach eq_refl eq_refl) as (_ & Hcalls);
    [by intros el Hel%elem_of_nil | exact Hemits | exact Hcalls].
Defined.



Lemma once_cancelled_run_next w e f c :
  invariant w ->
  once_cancelled e f c w ->
  once_cancelled e f c (run_next w)
  /\ calls_to f (calls (run_next w)) = calls_to f (calls w).
Proof.
  intros (_ & Hwf & _) Hp.
  destruct (microtasks w) as [|j q] eqn:Hq;
    [by rewrite run_next_nil|].
  rewrite (run_next_cons j q) by done.
  destruct Hp as [Hreg Hjobs]. rewrite Hq in Hjobs.
  inversion Hwf as [|? ? Hj Hq_wf]; subst.
  unfold once_cancelled. rewrite microtasks_run_job.
  change (microtasks (set_microtasks q w)) with q.
  unfold jobs_of in Hjobs. simpl in Hjobs. fold (jobs_of f q) in Hjobs.
  destruct (strict_eq (EventListener.listener (job_listener j)) f) eqn:Hf.
  - inversion Hjobs as [|? ? Hreg_j Hrest]; subst.
    rewrite listeners_of_run_job, calls_run_job, Hreg_j. simpl.
    rewrite !listeners_of_set_microtasks.
    rewrite (registrations_of_none_find f c _ Hreg).
    by rewrite app_nil_r.
  - destruct (run_job_other f j (set_microtasks q w) Hj Hf) as [Hc Hr].
    by rewrite Hc, Hr.
Qed.

Lemma once_cancelled_turns w e f c k :
  invariant w ->
  once_cancelled e f c w ->
  calls_to f (calls (run (List.repeat Run_next k) w)) = calls_to f (calls w).
Proof.
  revert w. induction k as [|k IH]; intros w Hinv Hp; [done|].
  simpl. destruct (once_cancelled_run_next w e f c Hinv Hp) as [Hp' Hc].
  rewrite IH; [done|by apply invariant_run_next|done].
Qed.

Lemma once_cancelled_by_off w e f c base sofar eventNames listener context :
  invariant w ->
  once_pending e f c base sofar w ->
  registrations_of f
    (listeners_of (fst (off eventNames listener context w)) e) = [] ->
  calls_to f (calls (drain (fst (off eventNames listener context w))))
  = calls_to f (calls w).
Proof.
  intros Hinv [Hjobs _] Hgone.
  destruct (off_rest w eventNames listener context) as [Hq Hc].
  rewrite drain_run_next, (once_cancelled_turns _ e f c).
  - by rewrite Hc.
  - by apply invariant_off.
  - split; [done|]. by rewrite Hq.
Qed.

Lemma registrations_of_removed_any f l :
  is_function f = true ->
  registrations_of f (removed f VUndefined l) = [].
Proof.
  intros Hfn. rewrite removed_any_context by (by destruct f).
  unfold registrations_of.
  induction l as [|el l IH]; simpl; [done|].
  destruct (strict_eq (EventListener.listener el) f) eqn:Hf; simpl; [done|].
  by rewrite Hf.
Qed.

(** X12. A call queued for a [once] listener is dropped when the listener
    is removed before the queue runs. Let [f] be a function with no
    registration under [e] and no job be queued; after [once(e, f, c)] and
    any emissions of [e] and runs of jobs, each of [off(e, f)], [off(e)]
    and [off()] followed by a turn of the queue adds no call of [f] to the
    log, however many of its jobs were still queued. *)
Theorem off_cancels_queued_once_calls
    (w : world) (e : string) (f c : value) (actions : list action) :
  reachable w ->
  is_function f = true ->
  microtasks w = [] ->
  registrations_of f (listeners_of w e) = [] ->
  emits_only e actions ->
  calls_to f
    (calls
       (drain
          (fst (off (VStr e) f VUndefined
                  (run actions (fst (once (VStr e) f c w)))))))
  = calls_to f (calls (run actions (fst (once (VStr e) f c w))))
  /\ calls_to f
       (calls
          (drain
             (fst (off (VStr e) VUndefined VUndefined
                     (run actions (fst (once (VStr e) f c w)))))))
     = calls_to f (calls (run actions (fst (once (VStr e) f c w))))
  /\ calls_to f
       (calls
          (drain
             (fst (off VUndefined VUndefined VUndefined
                     (run actions (fst (once (VStr e) f c w)))))))
     = calls_to f (calls (run actions (fst (once (VStr e) f c w)))).
Proof.
  intros Hreach Hfn Hq Hreg Hactions.
  pose proof (once_pending_start e f c Hfn w Hq Hreg) as Hstart.
  assert (Hinv : invariant (fst (once (VStr e) f c w)))
    by (by apply invariant_once, reachable_invariant).
  pose proof (once_pending_run e f c Hfn actions _ [] _ Hinv Hactions Hstart)
    as Hrun.
  pose proof (invariant_run actions _ Hinv) as Hinv'.
  split; [|split];
    apply (once_cancelled_by_off _ e f c _ _ _ _ _ Hinv' Hrun).
  - destruct (truthy (VStr e)) eqn:He.
    + rewrite off_named by done. change (fst (?a, ReturnThis)) with a.
      rewrite listeners_of_forEach_remove.
      rewrite decide_True by apply list_elem_of_here.
      by apply registrations_of_removed_any.
    + rewrite off_reset by done. change (fst (?a, ReturnThis)) with a.
      by rewrite listeners_of_reset.
  - by rewrite off_falsy_entry.
  - rewrite off_reset by done. change (fst (?a, ReturnThis)) with a.
    by rewrite listeners_of_reset.
Qed.

Lemma off_cancels_queued_once_calls_witness :
  let f := VFun 1 "function () {}" in
  let w := run [ Call_emit (VStr "event1") []; Call_emit (VStr "event1") [] ]
             (fst (once (VStr "event1") f VUndefined empty_world)) in
  length (jobs_of f (microtasks w)) = 2%nat
  /\ calls_to f (calls (drain (fst (off (VStr "event1") f VUndefined w))))
     = [].
Proof.
  intros f w. split; [reflexivity|].
  assert (Hreach : reachable empty_world) by (by exists []).
  assert (Hemits : emits_only "event1"
                     [ Call_emit (VStr "event1") [];
                       Call_emit (VStr "event1") [] ])
    by (by repeat constructor).
  destruct (off_cancels_queued_once_calls empty_world "event1" f VUndefined
              _ Hreach eq_refl eq_refl eq_refl Hemits) as (Hoff & _).
  exact Hoff.
Defined.

(** X16. In every world that a history leads to from the new emitter, each
    registration holds a function as listener, and its callback is either
    that listener or the wrapper [once] made for this very name, listener
    and context; the same holds of the registration of each queued job. *)
Theorem reachable_registrations_well_formed (w : world) :
  reachable w ->
  (forall n el,
      el ∈ listeners_of w n ->
      typeof (EventListener.listener el) = "function"
      /\ (EventListener.callback el = Direct (EventListener.listener el)
          \/ exists k,
              ToString k = n
              /\ EventListener.callback el
                 = OneOff k (EventListener.listener el)
                     (EventListener.context el)))
  /\ Forall
       (fun j =>
          typeof (EventListener.listener (job_listener j)) = "function"
          /\ (persistent (job_listener j)
              \/ exists k,
                  EventListener.callback (job_listener j)
                  = OneOff k (EventListener.listener (job_listener j))
                      (EventListener.context (job_listener j))))
       (microtasks w).
Proof.
  intros Hreach.
  destruct (reachable_invariant w Hreach) as (Hentries & Hjobs & _).
  split.
  - intros n el Hel. destruct (Hentries n) as [Hwf _].
    rewrite Forall_forall in Hwf. destruct (Hwf el Hel) as [Hty Hcb].
    split; [done|].
    destruct (EventListener.callback el) as [fn|k l c]; [left; congruence|].
    destruct Hcb as (<- & -> & ->). right. by exists k.
  - eapply Forall_impl; [exact Hjobs|].
    intros j [n [Hty Hcb]]. split; [done|]. unfold persistent.
    destruct (EventListener.callback (job_listener j)) as [fn|k l c];
      [left; congruence|].
    destruct Hcb as (_ & -> & ->). right. by exists k.
Qed.

Lemma reachable_registrations_well_formed_witness :
  let f := VFun 1 "function () {}" in
  let w := run [ Call_once (VStr "e") f (VObj 1);
                 Call_on (VStr "e") VNull VUndefined;
                 Call_emit (VStr "e") [] ] empty_world in
  Forall
    (fun j =>
       typeof (EventListener.listener (job_listener j)) = "function"
       /\ (persistent (job_listener j)
           \/ exists k,
               EventListener.callback (job_listener j)
               = OneOff k (EventListener.listener (job_listener j))
                   (EventListener.context (job_listener j))))
    (microtasks w).
Proof.
  intros f w.
  assert (Hreach : reachable w) by (eexists; reflexivity).
  apply (reachable_registrations_well_formed w Hreach).
Defined.
